(** * ServeMuxDynamic: a request multiplexer whose route table can be
      changed while it serves (runtime/mux_dynamic.go)

    The development embeds the three operations of [ServeMuxDynamic]:
    [Handle], [HandlerDeregister] and [ServeHTTP], together with the older
    variant of the same file that is kept next to the tests
    (runtime/mux_dynamic_test.go), and proves properties of them.

    Conventions.
    - Go strings are [string]; [len], [s[:i]] and [s[i:]] are written
      with [String.length] and [substring].
    - A Go slice is a [list]; a slice expression [s[lo:hi]] that would
      panic returns [None].
    - [map[string][]handler] is a [gmap string (list handler)]; looking up
      an absent key gives the nil slice, that is [[]].
    - [Pattern] is declared in another file of the package: here it is a
      record of the three methods that the multiplexer calls. *)

From Stdlib Require Import ZArith Lia.
From Stdlib Require Import Strings.String Strings.Ascii.
From stdpp Require Import base option list gmap strings fin_maps.

Open Scope Z_scope.
Open Scope string_scope.
Open Scope list_scope.
Open Scope stdpp_scope.

(** ** Strings (package strings of the Go library) *)

(** [len(s)] as a Go [int]. *)
Definition len (s : string) : Z := Z.of_nat (String.length s).

(** [strings.HasPrefix(s, prefix)]. *)
Definition HasPrefix (s prefix : string) : bool := String.prefix prefix s.

(** [strings.HasSuffix(s, suffix)]:
    [len(s) >= len(suffix) && s[len(s)-len(suffix):] == suffix]. *)
Definition HasSuffix (s suffix : string) : bool :=
  (String.length suffix <=? String.length s)%nat &&
  String.eqb
    (substring (String.length s - String.length suffix)
               (String.length suffix) s)
    suffix.

(** [s[:i]] and [s[i:]] for an index that is in range. *)
Definition str_to (s : string) (i : nat) : string := substring 0 i s.
Definition str_from (s : string) (i : nat) : string :=
  substring i (String.length s - i) s.

(** [strings.Split(s, sep)] for a separator of one byte: the substrings
    between the separators, never an empty slice. *)
Fixpoint Split (s : string) (sep : ascii) : list string :=
  match s with
  | EmptyString => [EmptyString]
  | String c s' =>
      if Ascii.eqb c sep then EmptyString :: Split s' sep
      else match Split s' sep with
           | hd :: tl => String c hd :: tl
           | [] => [String c EmptyString]
           end
  end.

(** ** Patterns, handlers and the route table *)

(** Path parameters, [map[string]string]. *)
Abbreviation Params := (gmap string string).

(** The [Pattern] of the runtime package, through the three methods that
    the multiplexer calls. [pat_Match] returns [None] for [ErrNotMatch]. *)
Record Pattern := {
  pat_String : string;
  pat_Verb : string;
  pat_Match : list string -> string -> option Params
}.

(** Status codes of net/http and the gRPC code used by the error paths. *)
Definition StatusBadRequest : Z := 400.
Definition StatusNotFound : Z := 404.
Definition StatusMethodNotAllowed : Z := 405.

Inductive Code := InvalidArgument.

(** A Go slice expression [l[lo:hi]]; [None] is the run-time panic for
    bounds out of range. *)
Definition slice {A} (l : list A) (lo hi : nat) : option (list A) :=
  if decide (lo ≤ hi ∧ hi ≤ length l)%nat
  then Some (take (hi - lo) (drop lo l))
  else None.

(** [a == b] on strings. *)
Definition streq (a b : string) : bool := bool_decide (a = b).

(** A binding: [handler] of the runtime package. [HandlerFunc] is a Go
    function value. *)
Record handler (HandlerFunc : Type) := {
  pat : Pattern;
  h : HandlerFunc
}.
Arguments pat {HandlerFunc} _.
Arguments h {HandlerFunc} _.

(** The fields of [*http.Request] that the multiplexer reads, and a state
    [Rest] (body, other headers, parsed form) that only the library
    touches. *)
Record Request (ReqRest : Type) := {
  Method : string;
  URL_Path : string;
  (* r.Header.Get("X-HTTP-Method-Override") *)
  Header_MethodOverride : string;
  Rest : ReqRest
}.
Arguments Method {ReqRest} _.
Arguments URL_Path {ReqRest} _.
Arguments Header_MethodOverride {ReqRest} _.
Arguments Rest {ReqRest} _.

(** [s.handlers[meth]] on the [handlers] field of [ServeMux]: the nil
    slice for an absent key. *)
Definition bindings {HandlerFunc} (s : gmap string (list (handler HandlerFunc)))
    (meth : string) : list (handler HandlerFunc) :=
  default [] (s !! meth).

Section Table.

Context {HandlerFunc : Type}.
Abbreviation Table := (gmap string (list (handler HandlerFunc))).

(** *** Handle (mux_dynamic.go, lines 19-24) *)

Definition Handle (s : Table) (meth : string) (p : Pattern) (f : HandlerFunc)
  : Table :=
  <[meth := {| pat := p; h := f |} :: bindings s meth]> s.

(** *** HandlerDeregister (mux_dynamic.go, lines 27-47) *)

(** The [for idx, h := range handlers] loop, run on the part [rest] of
    [handlers] that starts at index [idx]; the state is [offset] and
    [newHandlers]. *)
Fixpoint deregister_loop (handlers : list (handler HandlerFunc))
    (patS : string) (rest : list (handler HandlerFunc)) (idx offset : nat)
    (newHandlers : list (handler HandlerFunc))
  : option (nat * list (handler HandlerFunc)) :=
  match rest with
  | [] => Some (offset, newHandlers)
  | b :: rest' =>
      if streq (pat_String (pat b)) patS then
        seg ← slice handlers offset idx;
        deregister_loop handlers patS rest' (S idx) (S idx) (newHandlers ++ seg)
      else
        deregister_loop handlers patS rest' (S idx) offset newHandlers
  end.

Definition HandlerDeregister (s : Table) (meth : string) (p : Pattern)
  : option Table :=
  let handlers := bindings s meth in
  if (length handlers =? 0)%nat then Some s
  else
    '(offset, newHandlers) ←
      deregister_loop handlers (pat_String p) handlers 0 0 [];
    seg ← slice handlers offset (length handlers);
    Some (<[meth := newHandlers ++ seg]> s).

End Table.

(** ** The variant kept with the tests (mux_dynamic_test.go, lines 123-298) *)

Module Variant.

Section Table.

Context {HandlerFunc : Type}.
Abbreviation Table := (gmap string (list (handler HandlerFunc))).

(** The loop shared by [Handle] (lines 149-154) and [HandlerDeregister]
    (lines 178-183) of the variant. *)
Fixpoint remove_loop (handlers : list (handler HandlerFunc))
    (patS : string) (rest : list (handler HandlerFunc)) (idx offset : nat)
    (newHandlers : list (handler HandlerFunc))
  : option (nat * list (handler HandlerFunc)) :=
  match rest with
  | [] => Some (offset, newHandlers)
  | b :: rest' =>
      if streq (pat_String (pat b)) patS then
        match slice handlers offset idx with
        | Some seg =>
            remove_loop handlers patS rest' (S idx) (S idx) (newHandlers ++ seg)
        | None => None
        end
      else
        remove_loop handlers patS rest' (S idx) offset newHandlers
  end.

(** Handle, lines 141-164: a binding with the same pattern string is
    removed and the new binding is put at the end. *)
Definition Handle (s : Table) (meth : string) (p : Pattern) (f : HandlerFunc)
  : option Table :=
  let handlers := bindings s meth in
  match remove_loop handlers (pat_String p) handlers 0 0 [] with
  | None => None
  | Some (offset, newHandlers) =>
      if (offset =? 0)%nat then
        Some (<[meth := handlers ++ [ {| pat := p; h := f |} ] ]> s)
      else
        match slice handlers offset (length handlers) with
        | None => None
        | Some seg =>
            Some (<[meth := (newHandlers ++ seg) ++ [ {| pat := p; h := f |} ] ]> s)
        end
  end.

(** HandlerDeregister, lines 167-187. *)
Definition HandlerDeregister (s : Table) (meth : string) (p : Pattern)
  : option Table :=
  let handlers := bindings s meth in
  if (length handlers =? 0)%nat then Some s
  else
    match remove_loop handlers (pat_String p) handlers 0 0 [] with
    | None => None
    | Some (offset, newHandlers) =>
        match slice handlers offset (length handlers) with
        | None => None
        | Some seg => Some (<[meth := newHandlers ++ seg]> s)
        end
    end.

End Table.

End Variant.

(** ** ServeHTTP (mux_dynamic.go, lines 50-144) *)

(** How a dispatch ends, after the events of its trace: one of the two
    error handlers is called, or a handler is invoked with the request and
    the path parameters. [Panic] is an index out of range. *)
Inductive Outcome (HandlerFunc ReqRest : Type) :=
| RoutingError (status : Z)
| StatusError (c : Code) (msg : string)
| Invoked (f : HandlerFunc) (r : Request ReqRest) (pathParams : Params)
| Panic.
Arguments RoutingError {HandlerFunc ReqRest} _.
Arguments StatusError {HandlerFunc ReqRest} _ _.
Arguments Invoked {HandlerFunc ReqRest} _ _ _.
Arguments Panic {HandlerFunc ReqRest}.

(** What a dispatch does on the way, in order: the read lock of [s.mu],
    calls of [r.ParseForm] and calls of [Pattern.Match] with their
    arguments. *)
Inductive Event (ReqRest : Type) :=
| EvRLock
| EvRUnlock
| EvParseForm (r : Request ReqRest)
| EvMatch (p : Pattern) (components : list string) (verb : string).
Arguments EvRLock {ReqRest}.
Arguments EvRUnlock {ReqRest}.
Arguments EvParseForm {ReqRest} _.
Arguments EvMatch {ReqRest} _ _ _.



Section Dispatch.

Context {HandlerFunc ReqRest : Type}.
Abbreviation Table := (gmap string (list (handler HandlerFunc))).
Abbreviation Req := (Request ReqRest).
Abbreviation Result := (list (Event ReqRest) * Outcome HandlerFunc ReqRest)%type.

(** [r.ParseForm()] of net/http: the new state of the request and the
    error, if any. *)
Variable ParseForm : Req -> ReqRest * option string.
(** [s.isPathLengthFallback(r)], defined with [ServeMux]. *)
Variable isPathLengthFallback : Req -> bool.
(** [strings.ToUpper]. *)
Variable ToUpper : string -> string.

Definition set_Method (r : Req) (m : string) : Req :=
  {| Method := m; URL_Path := URL_Path r;
     Header_MethodOverride := Header_MethodOverride r; Rest := Rest r |}.

Definition set_Rest (r : Req) (x : ReqRest) : Req :=
  {| Method := Method r; URL_Path := URL_Path r;
     Header_MethodOverride := Header_MethodOverride r; Rest := x |}.

(** Lines 62-70: the method override. Either the dispatch ends here, or
    it goes on with the request as it is now. *)
Definition method_override (r : Req) : Result + (list (Event ReqRest) * Req) :=
  let override := Header_MethodOverride r in
  if negb (streq override "") && isPathLengthFallback r then
    let r := set_Method r (ToUpper override) in
    match ParseForm r with
    | (_, Some err) => inl ([EvParseForm r], StatusError InvalidArgument err)
    | (rest, None) => inr ([EvParseForm r], set_Rest r rest)
    end
  else inr ([], r).

(** Lines 85-100: the verb of one candidate. [verb_index] is [idx];
    [strip_verb] is the assignment of line 99, on the slice [components]
    that the loop overwrites and the variable [verb] declared before the
    loop. *)
Definition verb_index (patVerb lastComponent : string) : Z :=
  if negb (streq patVerb "") && HasSuffix lastComponent (":" +:+ patVerb)
  then len lastComponent - len patVerb - 1
  else -1.

Definition strip_verb (patVerb : string) (components : list string)
    (verb : string) (lastComponent : string) : list string * string :=
  let l := length components in
  let idx := verb_index patVerb lastComponent in
  if (0 <? idx)%Z then
    (<[(l - 1)%nat := str_to lastComponent (Z.to_nat idx)]> components,
     str_from lastComponent (Z.to_nat (idx + 1)))
  else (components, verb).

(** Lines 76-109: the loop over the bindings of the method of the
    request. It ends the dispatch ([inl]) or leaves [components] and
    [verb] as they are after the last candidate ([inr]). *)
Fixpoint primary_loop (r : Req) (hs : list (handler HandlerFunc))
    (components : list string) (verb : string)
  : list (Event ReqRest) * (Outcome HandlerFunc ReqRest + list string * string) :=
  match hs with
  | [] => ([], inr (components, verb))
  | b :: hs' =>
      let patVerb := pat_Verb (pat b) in
      let l := length components in
      match components !! (l - 1)%nat with
      | None => ([], inl Panic)
      | Some lastComponent =>
          if (verb_index patVerb lastComponent =? 0)%Z then
            ([EvRUnlock], inl (RoutingError StatusNotFound))
          else
            let '(components, verb) :=
              strip_verb patVerb components verb lastComponent in
            match pat_Match (pat b) components verb with
            | None =>
                let '(tr, res) := primary_loop r hs' components verb in
                (EvMatch (pat b) components verb :: tr, res)
            | Some pathParams =>
                ([EvMatch (pat b) components verb; EvRUnlock],
                 inl (Invoked (h b) r pathParams))
            end
      end
  end.

(** Lines 122-137: a binding of another method matches. The read lock
    is released first; then the form is parsed and the handler invoked if
    the path length fallback applies, and the method is not allowed if it
    does not. *)
Definition fallback_found (r : Req) (b : handler HandlerFunc)
    (pathParams : Params) : Result :=
  if isPathLengthFallback r then
    match ParseForm r with
    | (_, Some err) =>
        ([EvRUnlock; EvParseForm r], StatusError InvalidArgument err)
    | (rest, None) =>
        ([EvRUnlock; EvParseForm r], Invoked (h b) (set_Rest r rest) pathParams)
    end
  else ([EvRUnlock], RoutingError StatusMethodNotAllowed).

(** Lines 117-138: the bindings of one other method. *)
Fixpoint fallback_handlers (r : Req) (hs : list (handler HandlerFunc))
    (components : list string) (verb : string)
  : list (Event ReqRest) * option (Outcome HandlerFunc ReqRest) :=
  match hs with
  | [] => ([], None)
  | b :: hs' =>
      match pat_Match (pat b) components verb with
      | None =>
          let '(tr, res) := fallback_handlers r hs' components verb in
          (EvMatch (pat b) components verb :: tr, res)
      | Some pathParams =>
          let '(tr, out) := fallback_found r b pathParams in
          (EvMatch (pat b) components verb :: tr, Some out)
      end
  end.

(** Lines 113-139: the loop over the map. [order] is the order in which
    [range s.handlers] yields the entries, which Go leaves open. *)
Fixpoint fallback_loop (r : Req)
    (order : list (string * list (handler HandlerFunc)))
    (components : list string) (verb : string)
  : list (Event ReqRest) * option (Outcome HandlerFunc ReqRest) :=
  match order with
  | [] => ([], None)
  | (m, handlers) :: order' =>
      if streq m (Method r) then fallback_loop r order' components verb
      else
        match fallback_handlers r handlers components verb with
        | (tr, Some out) => (tr, Some out)
        | (tr, None) =>
            let '(tr', res) := fallback_loop r order' components verb in
            (tr ++ tr', res)
        end
  end.

(** Lines 72-144: the lookup, under the read lock, with the request as
    the method override left it. *)
Definition lookup (order : list (string * list (handler HandlerFunc)))
    (s : Table) (r : Req) (components : list string) : Result :=
  let verb := "" in
  match primary_loop r (bindings s (Method r)) components verb with
  | (tr1, inl out) => (EvRLock :: tr1, out)
  | (tr1, inr (components, verb)) =>
      match fallback_loop r order components verb with
      | (tr2, Some out) => (EvRLock :: tr1 ++ tr2, out)
      | (tr2, None) =>
          (EvRLock :: tr1 ++ tr2 ++ [EvRUnlock], RoutingError StatusNotFound)
      end
  end.

(** The whole of [ServeHTTP], for one order of iteration of the map. *)
Definition ServeHTTP_in (order : list (string * list (handler HandlerFunc)))
    (s : Table) (r : Req) : Result :=
  let path := URL_Path r in
  if negb (HasPrefix path "/") then ([], RoutingError StatusBadRequest)
  else
    let components := Split (str_from path 1) "/" in
    match method_override r with
    | inl res => res
    | inr (tr0, r) =>
        let '(tr, out) := lookup order s r components in (tr0 ++ tr, out)
    end.

(** [ServeHTTP s r res]: the dispatch of [r] on the table [s] can run as
    [res], for some order of iteration of the map. *)
Definition ServeHTTP (s : Table) (r : Req) (res : Result) : Prop :=
  exists order, order ≡ₚ map_to_list s /\ ServeHTTP_in order s r = res.

(** What one candidate makes of [components] and [verb]: the arguments
    that it gives to [Match], or [None] when the dispatch stops at it with
    [idx == 0] (or at an empty slice). *)
Definition candidate_view (p : Pattern) (components : list string)
    (verb : string) : option (list string * string) :=
  lastComponent ← components !! (length components - 1)%nat;
  if (verb_index (pat_Verb p) lastComponent =? 0)%Z then None
  else Some (strip_verb (pat_Verb p) components verb lastComponent).

(** [p] matches the path, seen by [p] alone. *)
Definition path_match (p : Pattern) (path : string) : option Params :=
  '(components, verb) ← candidate_view p (Split (str_from path 1) "/") "";
  pat_Match p components verb.

(** The pairs of components and verb that the loop can reach from
    [components] and [verb0] by stripping verbs of candidates. *)
Inductive views (components : list string) (verb0 : string)
  : list string -> string -> Prop :=
| views_start : views components verb0 components verb0
| views_strip c v lastComponent patVerb c' v' :
    views components verb0 c v ->
    c !! (length c - 1)%nat = Some lastComponent ->
    (0 < verb_index patVerb lastComponent)%Z ->
    strip_verb patVerb c v lastComponent = (c', v') ->
    views components verb0 c' v'.

End Dispatch.

(** ** Sequences of registrations and deregistrations *)

Inductive Op (HandlerFunc : Type) :=
| OpHandle (meth : string) (p : Pattern) (f : HandlerFunc)
| OpDeregister (meth : string) (p : Pattern).
Arguments OpHandle {HandlerFunc} _ _ _.
Arguments OpDeregister {HandlerFunc} _ _.

Definition apply_op {HandlerFunc} (s : gmap string (list (handler HandlerFunc)))
    (o : Op HandlerFunc) : option (gmap string (list (handler HandlerFunc))) :=
  match o with
  | OpHandle meth p f => Some (Handle s meth p f)
  | OpDeregister meth p => HandlerDeregister s meth p
  end.

Fixpoint run_ops {HandlerFunc} (s : gmap string (list (handler HandlerFunc)))
    (ops : list (Op HandlerFunc))
  : option (gmap string (list (handler HandlerFunc))) :=
  match ops with
  | [] => Some s
  | o :: ops' => s' ← apply_op s o; run_ops s' ops'
  end.

(** The pattern strings of a sequence of bindings, in order. *)
Definition pattern_strings {HandlerFunc} (l : list (handler HandlerFunc))
  : list string :=
  (fun b => pat_String (pat b)) <$> l.

(** No [Handle] of the sequence is called for a pattern string that is
    bound under that method at the time of the call. *)
Fixpoint ops_fresh {HandlerFunc} (s : gmap string (list (handler HandlerFunc)))
    (ops : list (Op HandlerFunc)) : Prop :=
  match ops with
  | [] => True
  | o :: ops' =>
      match o with
      | OpHandle meth p _ => pat_String p ∉ pattern_strings (bindings s meth)
      | OpDeregister _ _ => True
      end /\
      match apply_op s o with
      | Some s' => ops_fresh s' ops'
      | None => True
      end
  end.

(** A binding is kept by the deregistration of the pattern string [patS]. *)
Definition kept {HandlerFunc} (patS : string) (b : handler HandlerFunc) : Prop :=
  pat_String (pat b) ≠ patS.

#[global] Instance kept_dec {HandlerFunc} patS (b : handler HandlerFunc) :
  Decision (kept patS b).
Proof. unfold kept. apply _. Defined.

(** Every method has at most one binding for a pattern string. *)
Definition no_duplicates {HandlerFunc}
    (s : gmap string (list (handler HandlerFunc))) : Prop :=
  forall M, NoDup (pattern_strings (bindings s M)).

(** The kinds of events of a trace. *)
Definition is_match {ReqRest} (e : Event ReqRest) : Prop :=
  exists p c v, e = EvMatch p c v.
Definition is_parse {ReqRest} (e : Event ReqRest) : Prop :=
  exists r, e = EvParseForm r.


(** ** Goroutines and the lock [s.mu]

    Calls of [ServeHTTP], [Handle] and [HandlerDeregister] run in
    goroutines of their own and meet at the table and its [sync.RWMutex].
    A goroutine is one of these calls at some point of its run:
    - [TServe r]: [ServeHTTP] called with [r], nothing done yet;
    - [TWaitRLock r components]: at [s.mu.RLock()], line 75;
    - [TLocked tr out]: holding the read lock, with the events [tr] of the
      lookup still to do and [out] to end with;
    - [TUnlocked tr out]: the same after [s.mu.RUnlock()];
    - [THandler f r pathParams]: inside [h.h(w, r, pathParams)], for as
      long as the handler takes;
    - [TMutate o]: [Handle] or [HandlerDeregister] called, at
      [s.mu.Lock()];
    - [TMutateLocked o]: holding the write lock;
    - [TDone]: returned. *)
Inductive Thread (HandlerFunc ReqRest : Type) :=
| TServe (r : Request ReqRest)
| TWaitRLock (r : Request ReqRest) (components : list string)
| TLocked (tr : list (Event ReqRest)) (out : Outcome HandlerFunc ReqRest)
| TUnlocked (tr : list (Event ReqRest)) (out : Outcome HandlerFunc ReqRest)
| THandler (f : HandlerFunc) (r : Request ReqRest) (pathParams : Params)
| TMutate (o : Op HandlerFunc)
| TMutateLocked (o : Op HandlerFunc)
| TDone.
Arguments TServe {HandlerFunc ReqRest} _.
Arguments TWaitRLock {HandlerFunc ReqRest} _ _.
Arguments TLocked {HandlerFunc ReqRest} _ _.
Arguments TUnlocked {HandlerFunc ReqRest} _ _.
Arguments THandler {HandlerFunc ReqRest} _ _ _.
Arguments TMutate {HandlerFunc ReqRest} _.
Arguments TMutateLocked {HandlerFunc ReqRest} _.
Arguments TDone {HandlerFunc ReqRest}.

(** The table, the state of the lock (the number of holders of the read
    lock, and whether the write lock is held) and the goroutines. *)
Record World (HandlerFunc ReqRest : Type) := {
  w_table : gmap string (list (handler HandlerFunc));
  w_readers : nat;
  w_writer : bool;
  w_threads : list (Thread HandlerFunc ReqRest)
}.
Arguments w_table {HandlerFunc ReqRest} _.
Arguments w_readers {HandlerFunc ReqRest} _.
Arguments w_writer {HandlerFunc ReqRest} _.
Arguments w_threads {HandlerFunc ReqRest} _.

(** The read locks and the write locks that a goroutine holds, and the
    number of steps that it needs to release them. *)
Definition read_locks {HandlerFunc ReqRest} (t : Thread HandlerFunc ReqRest)
  : nat :=
  match t with TLocked _ _ => 1 | _ => 0 end.

Definition write_locks {HandlerFunc ReqRest} (t : Thread HandlerFunc ReqRest)
  : nat :=
  match t with TMutateLocked _ => 1 | _ => 0 end.

Definition locked_steps {HandlerFunc ReqRest} (t : Thread HandlerFunc ReqRest)
  : nat :=
  match t with
  | TLocked tr _ => length tr
  | TMutateLocked _ => 1
  | _ => 0
  end.

(** What the lookup has left to do in a goroutine that holds the read
    lock contains the release of the lock, after calls of [Match] only. *)
Definition thread_wf {HandlerFunc ReqRest} (t : Thread HandlerFunc ReqRest)
  : Prop :=
  match t with
  | TWaitRLock _ c => c ≠ []
  | TLocked tr _ =>
      exists pre post, tr = pre ++ EvRUnlock :: post /\
                       Forall is_match pre /\ Forall is_parse post
  | _ => True
  end.

(** The state of the lock agrees with the goroutines: the count of the
    readers is the number of goroutines between [RLock] and [RUnlock],
    the write lock is held by a goroutine between [Lock] and [Unlock],
    and never together with a read lock. *)
Record lock_invariant {HandlerFunc ReqRest} (w : World HandlerFunc ReqRest)
  : Prop := {
  inv_readers : w_readers w = sum_list (read_locks <$> w_threads w);
  inv_writer :
    sum_list (write_locks <$> w_threads w)
    = if w_writer w then 1%nat else 0%nat;
  inv_exclusive : w_writer w = true -> w_readers w = 0%nat;
  inv_wf : Forall thread_wf (w_threads w)
}.

Section Goroutines.

Context {HandlerFunc ReqRest : Type}.
Variable ParseForm : Request ReqRest -> ReqRest * option string.
Variable isPathLengthFallback : Request ReqRest -> bool.
Variable ToUpper : string -> string.

Abbreviation Table := (gmap string (list (handler HandlerFunc))).
Abbreviation Thr := (Thread HandlerFunc ReqRest).

(** One step of one goroutine, on the table and the lock:
    [thread_step s n wr t s' n' wr' t']. [RLock] waits while the write
    lock is held, [Lock] while any lock is held. Go makes [RLock] wait for
    a waiting writer too: the steps here are those of Go and possibly
    more, so the states that Go can reach are among those reached here.
    The lookup is computed when the read lock is taken, on the table of
    that moment, which cannot change before the lock is released. *)
Inductive thread_step
  : Table -> nat -> bool -> Thr -> Table -> nat -> bool -> Thr -> Prop :=
| step_bad_path s n wr r :
    HasPrefix (URL_Path r) "/" = false ->
    thread_step s n wr (TServe r)
                s n wr (TUnlocked [] (RoutingError StatusBadRequest))
| step_override_error s n wr r tr out :
    HasPrefix (URL_Path r) "/" = true ->
    method_override ParseForm isPathLengthFallback ToUpper r = inl (tr, out) ->
    thread_step s n wr (TServe r) s n wr (TUnlocked [] out)
| step_enter s n wr r tr0 r' :
    HasPrefix (URL_Path r) "/" = true ->
    method_override (HandlerFunc := HandlerFunc)
      ParseForm isPathLengthFallback ToUpper r = inr (tr0, r') ->
    thread_step s n wr (TServe r)
                s n wr (TWaitRLock r' (Split (str_from (URL_Path r) 1) "/"))
| step_RLock s n r c order tr out :
    order ≡ₚ map_to_list s ->
    lookup ParseForm isPathLengthFallback order s r c = (EvRLock :: tr, out) ->
    thread_step s n false (TWaitRLock r c) s (S n) false (TLocked tr out)
| step_Match s n wr p c v tr out :
    thread_step s n wr (TLocked (EvMatch p c v :: tr) out)
                s n wr (TLocked tr out)
| step_RUnlock s n wr tr out :
    thread_step s (S n) wr (TLocked (EvRUnlock :: tr) out)
                s n wr (TUnlocked tr out)
| step_ParseForm s n wr r tr out :
    thread_step s n wr (TUnlocked (EvParseForm r :: tr) out)
                s n wr (TUnlocked tr out)
| step_invoke s n wr f r pathParams :
    thread_step s n wr (TUnlocked [] (Invoked f r pathParams))
                s n wr (THandler f r pathParams)
| step_routing_error s n wr status :
    thread_step s n wr (TUnlocked [] (RoutingError status)) s n wr TDone
| step_status_error s n wr code msg :
    thread_step s n wr (TUnlocked [] (StatusError code msg)) s n wr TDone
| step_handler_returns s n wr f r pathParams :
    thread_step s n wr (THandler f r pathParams) s n wr TDone
| step_Lock s o :
    thread_step s 0 false (TMutate o) s 0 true (TMutateLocked o)
| step_mutate_Unlock s o s' :
    apply_op s o = Some s' ->
    thread_step s 0 true (TMutateLocked o) s' 0 false TDone.

(** Goroutine [i] makes a step. *)
Inductive step (w : World HandlerFunc ReqRest) (i : nat)
  : World HandlerFunc ReqRest -> Prop :=
| step_at t s' n' wr' t' :
    w_threads w !! i = Some t ->
    thread_step (w_table w) (w_readers w) (w_writer w) t s' n' wr' t' ->
    step w i {| w_table := s'; w_readers := n'; w_writer := wr';
                w_threads := <[i := t']> (w_threads w) |}.

(** At the start the lock is free and every goroutine is a call that has
    not begun. *)
Definition not_begun (t : Thr) : Prop :=
  match t with TServe _ | TMutate _ => True | _ => False end.

Definition initial (w : World HandlerFunc ReqRest) : Prop :=
  w_readers w = 0%nat /\ w_writer w = false /\ Forall not_begun (w_threads w).

Inductive reachable : World HandlerFunc ReqRest -> Prop :=
| reachable_initial w : initial w -> reachable w
| reachable_step w i w' : reachable w -> step w i w' -> reachable w'.

(** A run in which goroutine [i] makes no step. *)
Inductive runs_without (i : nat)
  : World HandlerFunc ReqRest -> World HandlerFunc ReqRest -> Prop :=
| runs_without_refl w : runs_without i w w
| runs_without_step w k w' w'' :
    k ≠ i -> step w k w' -> runs_without i w' w'' -> runs_without i w w''.

End Goroutines.

(** ** More on the table *)

(** The methods that a sequence of calls registers something for. *)
Fixpoint handled_methods {HandlerFunc} (ops : list (Op HandlerFunc))
  : gset string :=
  match ops with
  | [] => ∅
  | OpHandle meth _ _ :: ops' => {[ meth ]} ∪ handled_methods ops'
  | OpDeregister _ _ :: ops' => handled_methods ops'
  end.

(** [n] calls of [Handle] for the same method, pattern and handler. *)
Fixpoint Handle_times {HandlerFunc} (n : nat)
    (s : gmap string (list (handler HandlerFunc)))
    (meth : string) (p : Pattern) (f : HandlerFunc)
  : gmap string (list (handler HandlerFunc)) :=
  match n with
  | O => s
  | S n' => Handle (Handle_times n' s meth p f) meth p f
  end.

(** Calls of the variant's [Handle] and [HandlerDeregister] in sequence. *)
Definition Variant_apply_op {HandlerFunc}
    (s : gmap string (list (handler HandlerFunc)))
    (o : Op HandlerFunc) : option (gmap string (list (handler HandlerFunc))) :=
  match o with
  | OpHandle meth p f => Variant.Handle s meth p f
  | OpDeregister meth p => Variant.HandlerDeregister s meth p
  end.

Fixpoint Variant_run_ops {HandlerFunc}
    (s : gmap string (list (handler HandlerFunc)))
    (ops : list (Op HandlerFunc))
  : option (gmap string (list (handler HandlerFunc))) :=
  match ops with
  | [] => Some s
  | o :: ops' => s' ← Variant_apply_op s o; Variant_run_ops s' ops'
  end.

(** *** TestServeMuxMutex_Deregister (mux_dynamic_test.go, lines 12-122) *)

(** The body of one case of the test, lines 102-118: the table has
    [handlers] under ["GET"]; after [HandlerDeregister] no binding of
    [meth] may have the pattern string, and the number of bindings must be
    [len(handlers) - count]. [Some true] is a case that passes, [None] a
    panic. The handlers of the test have no function, only a pattern. *)
Definition deregister_case (handlers : list (handler unit))
    (table : gmap string (list (handler unit)))
    (meth : string) (p : Pattern) (count : Z) : option bool :=
  s ← HandlerDeregister table meth p;
  Some (forallb (fun b => negb (streq (pat_String (pat b)) (pat_String p)))
          (bindings s meth)
        && (Z.of_nat (length (bindings s meth))
            =? Z.of_nat (length handlers) - count)%Z).

(** The four cases of the test, lines 30-97, on the patterns [h1] to
    [h6]; [h3] and [h4] are built from the same arguments. *)
Definition TestServeMuxMutex_Deregister (h1 h2 h3 h5 h6 : Pattern)
  : list (option bool) :=
  let mk p := {| pat := p; h := tt |} in
  let h4 := h3 in
  let handlers := [mk h1; mk h2; mk h3; mk h4; mk h5] in
  let table : gmap string (list (handler unit)) := {[ "GET" := handlers ]} in
  [ deregister_case handlers table "GET" h1 1;
    deregister_case handlers table "GET" h5 1;
    deregister_case handlers table "GET" h3 2;
    deregister_case handlers table "GET" h6 0 ].

(** ** More on the dispatch *)

(** Lines 126-133: the request [r'] that the handler of a binding of
    another method is invoked with, when the request was [r]: the path
    length fallback applies and the form has been parsed without error. *)
Definition by_fallback {ReqRest}
    (ParseForm : Request ReqRest -> ReqRest * option string)
    (isPathLengthFallback : Request ReqRest -> bool)
    (r r' : Request ReqRest) : Prop :=
  isPathLengthFallback r = true /\
  exists rest, ParseForm r = (rest, None) /\ r' = set_Rest r rest.

(** ** ServeHTTP of the variant (mux_dynamic_test.go, lines 190-292) *)

(** [strings.LastIndex(s, sep)] for a separator of one byte: the index of
    the last [sep] in [s], or [-1]. *)
Fixpoint LastIndex (s : string) (sep : ascii) : Z :=
  match s with
  | EmptyString => -1
  | String c s' =>
      let i := LastIndex s' sep in
      if (0 <=? i)%Z then i + 1
      else if Ascii.eqb c sep then 0 else -1
  end.

Module VariantServe.

(** How a dispatch of the variant ends. An error goes to
    [s.protoErrorHandler] when one is set, with a status or with
    [ErrUnknownURI] (a status declared in another file of the package),
    and to [OtherErrorHandler] with a message and an HTTP status when
    none is set. *)
Inductive Outcome (HandlerFunc ReqRest : Type) :=
| ProtoError (c : Code) (msg : string)
| ProtoUnknownURI
| OtherError (msg : string) (code : Z)
| Invoked (f : HandlerFunc) (r : Request ReqRest) (pathParams : Params)
| Panic.
Arguments ProtoError {HandlerFunc ReqRest} _ _.
Arguments ProtoUnknownURI {HandlerFunc ReqRest}.
Arguments OtherError {HandlerFunc ReqRest} _ _.
Arguments Invoked {HandlerFunc ReqRest} _ _ _.
Arguments Panic {HandlerFunc ReqRest}.

Section Dispatch.

Context {HandlerFunc ReqRest : Type}.
Abbreviation Table := (gmap string (list (handler HandlerFunc))).
Abbreviation Req := (Request ReqRest).
Abbreviation Result :=
  (list (Event ReqRest) * Outcome HandlerFunc ReqRest)%type.

Variable ParseForm : Req -> ReqRest * option string.
Variable isPathLengthFallback : Req -> bool.
Variable ToUpper : string -> string.
(** [http.StatusText]. *)
Variable StatusText : Z -> string.
(** [s.protoErrorHandler != nil]. *)
Variable proto : bool.

(** The two shapes of the error branches: a bad request with a message
    (lines 194-201 and 221-227), and an unknown URI (lines 209-214),
    which with [OtherErrorHandler] is reported with the text of the HTTP
    status. *)
Definition bad_request (msg : string) : Outcome HandlerFunc ReqRest :=
  if proto then ProtoError InvalidArgument msg
  else OtherError msg StatusBadRequest.

Definition unknown_uri (status : Z) : Outcome HandlerFunc ReqRest :=
  if proto then ProtoUnknownURI
  else OtherError (StatusText status) status.

(** Lines 205-218: the verb is split off at the last colon of the last
    component, before the table is looked at. *)
Definition split_verb (components : list string)
  : Outcome HandlerFunc ReqRest + list string * string :=
  let l := length components in
  match components !! (l - 1)%nat with
  | None => inl Panic
  | Some c =>
      let idx := LastIndex c ":" in
      if (idx =? 0)%Z then inl (unknown_uri StatusNotFound)
      else if (0 <? idx)%Z then
        inr (<[(l - 1)%nat := str_to c (Z.to_nat idx)]> components,
             str_from c (Z.to_nat (idx + 1)))
      else inr (components, "")
  end.

(** Lines 220-231: the method override. *)
Definition method_override (r : Req) : Result + (list (Event ReqRest) * Req) :=
  let override := Header_MethodOverride r in
  if negb (streq override "") && isPathLengthFallback r then
    let r := set_Method r (ToUpper override) in
    match ParseForm r with
    | (_, Some err) => inl ([EvParseForm r], bad_request err)
    | (rest, None) => inr ([EvParseForm r], set_Rest r rest)
    end
  else inr ([], r).

(** Lines 234-243: the loop over the bindings of the method. *)
Fixpoint primary_loop (r : Req) (hs : list (handler HandlerFunc))
    (components : list string) (verb : string)
  : list (Event ReqRest) * option (Outcome HandlerFunc ReqRest) :=
  match hs with
  | [] => ([], None)
  | b :: hs' =>
      match pat_Match (pat b) components verb with
      | None =>
          let '(tr, res) := primary_loop r hs' components verb in
          (EvMatch (pat b) components verb :: tr, res)
      | Some pathParams =>
          ([EvMatch (pat b) components verb; EvRUnlock],
           Some (Invoked (h b) r pathParams))
      end
  end.

(** Lines 257-281: a binding of another method matches. *)
Definition fallback_found (r : Req) (b : handler HandlerFunc)
    (pathParams : Params) : Result :=
  if isPathLengthFallback r then
    match ParseForm r with
    | (_, Some err) => ([EvRUnlock; EvParseForm r], bad_request err)
    | (rest, None) =>
        ([EvRUnlock; EvParseForm r], Invoked (h b) (set_Rest r rest) pathParams)
    end
  else ([EvRUnlock], unknown_uri StatusMethodNotAllowed).

(** Lines 251-282: the bindings of one other method. *)
Fixpoint fallback_handlers (r : Req) (hs : list (handler HandlerFunc))
    (components : list string) (verb : string)
  : list (Event ReqRest) * option (Outcome HandlerFunc ReqRest) :=
  match hs with
  | [] => ([], None)
  | b :: hs' =>
      match pat_Match (pat b) components verb with
      | None =>
          let '(tr, res) := fallback_handlers r hs' components verb in
          (EvMatch (pat b) components verb :: tr, res)
      | Some pathParams =>
          let '(tr, out) := fallback_found r b pathParams in
          (EvMatch (pat b) components verb :: tr, Some out)
      end
  end.

(** Lines 247-283: the loop over the map, in the order [order]. *)
Fixpoint fallback_loop (r : Req)
    (order : list (string * list (handler HandlerFunc)))
    (components : list string) (verb : string)
  : list (Event ReqRest) * option (Outcome HandlerFunc ReqRest) :=
  match order with
  | [] => ([], None)
  | (m, handlers) :: order' =>
      if streq m (Method r) then fallback_loop r order' components verb
      else
        match fallback_handlers r handlers components verb with
        | (tr, Some out) => (tr, Some out)
        | (tr, None) =>
            let '(tr', res) := fallback_loop r order' components verb in
            (tr ++ tr', res)
        end
  end.

(** Lines 233-291: the lookup, under the read lock. *)
Definition lookup (order : list (string * list (handler HandlerFunc)))
    (s : Table) (r : Req) (components : list string) (verb : string) : Result :=
  match primary_loop r (bindings s (Method r)) components verb with
  | (tr1, Some out) => (EvRLock :: tr1, out)
  | (tr1, None) =>
      match fallback_loop r order components verb with
      | (tr2, Some out) => (EvRLock :: tr1 ++ tr2, out)
      | (tr2, None) =>
          (EvRLock :: tr1 ++ tr2 ++ [EvRUnlock], unknown_uri StatusNotFound)
      end
  end.

(** The whole of [ServeHTTP] of the variant, for one order of iteration
    of the map. *)
Definition ServeHTTP_in (order : list (string * list (handler HandlerFunc)))
    (s : Table) (r : Req) : Result :=
  let path := URL_Path r in
  if negb (HasPrefix path "/")
  then ([], bad_request (StatusText StatusBadRequest))
  else
    match split_verb (Split (str_from path 1) "/") with
    | inl out => ([], out)
    | inr (components, verb) =>
        match method_override r with
        | inl res => res
        | inr (tr0, r) =>
            let '(tr, out) := lookup order s r components verb in
            (tr0 ++ tr, out)
        end
    end.

End Dispatch.

End VariantServe.

(** What the variant makes of an end of the dispatch of mux_dynamic.go:
    the error handlers of the variant, on the same status or message. *)
Definition render {HandlerFunc ReqRest} (StatusText : Z -> string)
    (proto : bool) (o : Outcome HandlerFunc ReqRest)
  : VariantServe.Outcome HandlerFunc ReqRest :=
  match o with
  | RoutingError status =>
      if (status =? StatusBadRequest)%Z
      then VariantServe.bad_request proto (StatusText status)
      else VariantServe.unknown_uri StatusText proto status
  | StatusError _ msg => VariantServe.bad_request proto msg
  | Invoked f r pathParams => VariantServe.Invoked f r pathParams
  | Panic => VariantServe.Panic
  end.

(** ** More on the goroutines *)



(** ** Example data: patterns, requests and the functions of the library *)

(** Upper case for ASCII letters. *)
Definition ex_upper_char (a : ascii) : ascii :=
  let n := nat_of_ascii a in
  if ((97 <=? n) && (n <=? 122))%nat then ascii_of_nat (n - 32) else a.

Fixpoint ex_ToUpper (s : string) : string :=
  match s with
  | EmptyString => EmptyString
  | String a s' => String (ex_upper_char a) (ex_ToUpper s')
  end.

(** The rest of an example request: whether its content type is that of a
    form, and the error that parsing its form gives, if any. *)
Definition ExRest : Type := bool * option string.

Definition ex_ParseForm (r : Request ExRest) : ExRest * option string :=
  (Rest r, snd (Rest r)).

Definition ex_isPathLengthFallback (r : Request ExRest) : bool :=
  streq (Method r) "POST" && fst (Rest r).

Definition ex_request (meth path override : string) (rest : ExRest)
  : Request ExRest :=
  {| Method := meth; URL_Path := path;
     Header_MethodOverride := override; Rest := rest |}.

(** A pattern of literals: it matches its components and its verb and
    nothing else. *)
Definition lit_pattern (name : string) (components : list string)
    (verb : string) : Pattern :=
  {| pat_String := name;
     pat_Verb := verb;
     pat_Match := fun c v =>
       if decide (c = components /\ v = verb) then Some ∅ else None |}.

(** The pattern [/{x}]: one component, whatever it is, and no verb. *)
Definition var_pattern : Pattern :=
  {| pat_String := "/{x}";
     pat_Verb := "";
     pat_Match := fun c v =>
       match c with
       | [x] => if decide (v = "") then Some {[ "x" := x ]} else None
       | _ => None
       end |}.

(** Handlers of the examples are named by strings. *)
Definition ex_serve :=
  ServeHTTP_in (HandlerFunc := string)
    ex_ParseForm ex_isPathLengthFallback ex_ToUpper.

Definition pat_a : Pattern := lit_pattern "/a" ["a"] "".
Definition pat_ab_v : Pattern := lit_pattern "/a/b:v" ["a"; "b"] "v".
Definition pat_x_1 : Pattern := lit_pattern "/x:1" ["x"] "1".
Definition pat_res_v1 : Pattern := lit_pattern "/res:v:1" ["res"] "v:1".
Definition pat_x_c : Pattern := lit_pattern "/x:c" ["x"] "c".
Definition pat_y_b : Pattern := lit_pattern "/y:b" ["y"] "b".

(** [GET /a] registered twice. *)
Definition table_twice : gmap string (list (handler string)) :=
  Handle (Handle ∅ "GET" pat_a "first") "GET" pat_a "second".

(** [GET /a/b:v] and [POST /{x}]. *)
Definition table_colon : gmap string (list (handler string)) :=
  Handle (Handle ∅ "GET" pat_ab_v "get") "POST" var_pattern "post".

(** [GET /x:1], then [GET /res:v:1]. *)
Definition table_verbs : gmap string (list (handler string)) :=
  Handle (Handle ∅ "GET" pat_res_v1 "res") "GET" pat_x_1 "x".

(** [GET /x:c], then [GET /y:b]. *)
Definition table_restrip : gmap string (list (handler string)) :=
  Handle (Handle ∅ "GET" pat_y_b "y") "GET" pat_x_c "x".

(** [GET /a] only. *)
Definition table_a : gmap string (list (handler string)) :=
  Handle ∅ "GET" pat_a "a".

(** Requests of the examples. *)
Definition req_get_a : Request ExRest :=
  ex_request "GET" "/a" "" (false, None).
Definition req_get_b : Request ExRest :=
  ex_request "GET" "/b" "" (false, None).
Definition req_post_a : Request ExRest :=
  ex_request "POST" "/a" "" (true, None).
Definition req_override_put : Request ExRest :=
  ex_request "POST" "/a" "put" (true, None).
Definition req_res : Request ExRest :=
  ex_request "GET" "/res:v:1" "" (false, None).
Definition req_abc : Request ExRest :=
  ex_request "GET" "/a:b:c" "" (false, None).

(** A run of two goroutines: [GET /a] is served up to its handler while
    a call of [Handle] waits to begin. *)
Definition world_start : World string ExRest :=
  {| w_table := table_a; w_readers := 0; w_writer := false;
     w_threads := [TServe req_get_a; TMutate (OpHandle "GET" pat_x_1 "x")] |}.

Definition world_in_handler : World string ExRest :=
  {| w_table := table_a; w_readers := 0; w_writer := false;
     w_threads := [THandler "a" req_get_a ∅;
                   TMutate (OpHandle "GET" pat_x_1 "x")] |}.

(** ** More example data *)

Definition pat_b : Pattern := lit_pattern "/b" ["b"] "".

(** The patterns of the test: [/a], [/a/b], [/a/b/c], [/a/b/c/d] and
    [/a/b/c/d/e]. *)
Definition test_h1 : Pattern := lit_pattern "/a" ["a"] "".
Definition test_h2 : Pattern := lit_pattern "/a/b" ["a"; "b"] "".
Definition test_h3 : Pattern := lit_pattern "/a/b/c" ["a"; "b"; "c"] "".
Definition test_h5 : Pattern := lit_pattern "/a/b/c/d" ["a"; "b"; "c"; "d"] "".
Definition test_h6 : Pattern :=
  lit_pattern "/a/b/c/d/e" ["a"; "b"; "c"; "d"; "e"] "".

(** [GET /a], then [GET /b]; and [GET /b] only. *)
Definition table_ab : gmap string (list (handler string)) :=
  Handle (Handle ∅ "GET" pat_a "a") "GET" pat_b "b".

Definition table_b : gmap string (list (handler string)) :=
  Handle ∅ "GET" pat_b "b".

(** [http.StatusText] on the three codes that the variant uses. *)
Definition ex_StatusText (code : Z) : string :=
  if (code =? 400)%Z then "Bad Request"
  else if (code =? 404)%Z then "Not Found"
  else if (code =? 405)%Z then "Method Not Allowed"
  else "".

(** The call of [Handle] of [world_start] holds the write lock, and has
    returned. *)
Definition world_locked : World string ExRest :=
  {| w_table := table_a; w_readers := 0; w_writer := true;
     w_threads := [TServe req_get_a;
                   TMutateLocked (OpHandle "GET" pat_x_1 "x")] |}.

Definition world_mutated : World string ExRest :=
  {| w_table := Handle table_a "GET" pat_x_1 "x";
     w_readers := 0; w_writer := false;
     w_threads := [TServe req_get_a; TDone] |}.



(** * Properties *)

(** ** The table: [Handle] and [HandlerDeregister] *)

Section TableProofs.

Context {HandlerFunc : Type}.
Implicit Types (s : gmap string (list (handler HandlerFunc))).
Implicit Types (l handlers rest pre nh : list (handler HandlerFunc)).

Lemma slice_in_range {A} (l : list A) (lo hi : nat) :
  (lo ≤ hi)%nat -> (hi ≤ length l)%nat ->
  slice l lo hi = Some (take (hi - lo) (drop lo l)).
Proof. intros. unfold slice. rewrite decide_True; [done | lia]. Qed.

Lemma slice_prefix_part {A} (pre rest : list A) (offset : nat) :
  (offset ≤ length pre)%nat ->
  slice (pre ++ rest) offset (length pre) = Some (drop offset pre).
Proof.
  intros Hle. rewrite slice_in_range; [| done | rewrite length_app; lia].
  f_equal. rewrite drop_app_le by done.
  rewrite take_app_le by (rewrite length_drop; lia).
  apply take_ge. rewrite length_drop. lia.
Qed.

Lemma slice_to_end {A} (l : list A) (offset : nat) :
  (offset ≤ length l)%nat -> slice l offset (length l) = Some (drop offset l).
Proof.
  intros Hle. rewrite slice_in_range by done. f_equal.
  apply take_ge. rewrite length_drop. lia.
Qed.

Lemma deregister_loop_spec handlers patS rest :
  forall pre offset nh,
    handlers = pre ++ rest ->
    (offset ≤ length pre)%nat ->
    filter (kept patS) pre = nh ++ drop offset pre ->
    exists offset' nh',
      deregister_loop handlers patS rest (length pre) offset nh
        = Some (offset', nh') /\
      (offset' ≤ length handlers)%nat /\
      filter (kept patS) handlers = nh' ++ drop offset' handlers /\
      (offset' = 0%nat <-> offset = 0%nat /\ Forall (kept patS) rest).
Proof.
  induction rest as [| b rest IH]; intros pre offset nh Hh Hle Hinv.
  - simpl. exists offset, nh. rewrite app_nil_r in Hh. subst pre.
    do 3 (split; [done |]). split; [by intros -> | by intros [? _]].
  - simpl. unfold streq. case_bool_decide as Hb.
    + assert (Hs : slice handlers offset (length pre) = Some (drop offset pre))
        by (rewrite Hh; by apply slice_prefix_part).
      rewrite Hs. simpl.
      destruct (IH (pre ++ [b]) (S (length pre)) (nh ++ drop offset pre))
        as (offset' & nh' & Hrun & Hle' & Hfilter & Hzero).
      * by rewrite <- app_assoc.
      * rewrite length_app. simpl. lia.
      * rewrite filter_app, Hinv.
        rewrite (filter_cons_False (kept patS) b []) by (unfold kept; tauto).
        rewrite filter_nil, app_nil_r.
        rewrite (drop_ge (pre ++ [b])) by (rewrite length_app; simpl; lia).
        by rewrite app_nil_r.
      * rewrite length_app in Hrun. simpl in Hrun.
        replace (length pre + 1)%nat with (S (length pre)) in Hrun by lia.
        exists offset', nh'. do 3 (split; [done |]). split.
        -- intros H0. apply Hzero in H0 as [? _]. lia.
        -- intros [_ Hall]. inversion Hall; subst. unfold kept in *. tauto.
    + destruct (IH (pre ++ [b]) offset nh)
        as (offset' & nh' & Hrun & Hle' & Hfilter & Hzero).
      * by rewrite <- app_assoc.
      * rewrite length_app. simpl. lia.
      * rewrite filter_app, Hinv.
        rewrite (filter_cons_True (kept patS) b []) by done.
        rewrite filter_nil. rewrite drop_app_le by done.
        by rewrite app_assoc.
      * rewrite length_app in Hrun. simpl in Hrun.
        replace (length pre + 1)%nat with (S (length pre)) in Hrun by lia.
        exists offset', nh'. do 3 (split; [done |]). split.
        -- intros H0. apply Hzero in H0 as [? ?]. split; [done |]. by constructor.
        -- intros [H0 Hall]. apply Hzero. split; [done |]. by inversion Hall.
Qed.

Lemma filter_all {A} (P : A -> Prop) `{forall x, Decision (P x)} (l : list A) :
  Forall P l -> filter P l = l.
Proof.
  induction 1 as [| x l Hx _ IH]; [done |].
  rewrite filter_cons_True by done. by rewrite IH.
Qed.

Lemma bindings_insert s M l : bindings (<[M := l]> s) M = l.
Proof. unfold bindings. by rewrite lookup_insert_eq. Qed.

Lemma bindings_insert_ne s M M' l :
  M ≠ M' -> bindings (<[M := l]> s) M' = bindings s M'.
Proof. intros. unfold bindings. by rewrite lookup_insert_ne. Qed.

Lemma bindings_cons_lookup s M b l :
  bindings s M = b :: l -> s !! M = Some (b :: l).
Proof. unfold bindings. destruct (s !! M); simpl; congruence. Qed.

(** [HandlerDeregister] always returns, and its result is described by
    [filter]. *)
Lemma HandlerDeregister_filter s M p :
  exists s',
    HandlerDeregister s M p = Some s' /\
    bindings s' M = filter (kept (pat_String p)) (bindings s M) /\
    (forall M', M' ≠ M -> s' !! M' = s !! M') /\
    (Forall (kept (pat_String p)) (bindings s M) -> s' = s).
Proof.
  unfold HandlerDeregister.
  destruct (bindings s M) as [| b l] eqn:Hb.
  { exists s. simpl. rewrite Hb. by rewrite filter_nil. }
  change (length (b :: l) =? 0)%nat with false. cbv iota.
  destruct (deregister_loop_spec (b :: l) (pat_String p) (b :: l) [] 0%nat [])
    as (offset & nh & Hrun & Hle & Hfilter & _);
    [done | simpl; lia | done |].
  pose proof (slice_to_end (b :: l) offset Hle) as Hs.
  simpl in Hrun, Hs |- *. rewrite Hrun. simpl. rewrite Hs. simpl.
  eexists. split; [done |]. rewrite bindings_insert, <- Hfilter.
  split; [done |]. split.
  - intros M' Hne. by rewrite lookup_insert_ne.
  - intros Hall. rewrite filter_all by done.
    apply insert_id. by apply bindings_cons_lookup.
Qed.

(** Claim C1. Deregister exactness: [HandlerDeregister] always returns a
    table and never panics. The bindings under [M] are then those of
    before without the bindings whose pattern string is that of [p], the
    others in the same order; the entries of the other methods are the
    same; and when no binding under [M] has that pattern string, as when
    [M] has no binding at all, the table is the same as before. *)
Theorem HandlerDeregister_exact s M p :
  exists s',
    HandlerDeregister s M p = Some s' /\
    bindings s' M = filter (kept (pat_String p)) (bindings s M) /\
    (forall M', M' ≠ M -> s' !! M' = s !! M') /\
    (Forall (kept (pat_String p)) (bindings s M) -> s' = s).
Proof. apply HandlerDeregister_filter. Qed.

Lemma remove_loop_eq handlers patS rest :
  forall idx offset nh,
    Variant.remove_loop handlers patS rest idx offset nh
    = deregister_loop handlers patS rest idx offset nh.
Proof.
  induction rest as [| b rest IH]; intros idx offset nh; [done |].
  cbn [Variant.remove_loop deregister_loop].
  destruct (streq _ _); [| apply IH].
  destruct (slice handlers offset idx); [apply IH | done].
Qed.

(** Claim C9. The [HandlerDeregister] of mux_dynamic.go and the one of
    the variant in mux_dynamic_test.go give the same result on every
    table, method and pattern. *)
Theorem HandlerDeregister_variant_equal s M p :
  Variant.HandlerDeregister s M p = HandlerDeregister s M p.
Proof.
  unfold Variant.HandlerDeregister, HandlerDeregister.
  destruct (length (bindings s M) =? 0)%nat; [done |].
  rewrite remove_loop_eq.
  destruct (deregister_loop _ _ _ _ _ _) as [[offset nh] |]; [| done].
  cbn [mbind option_bind].
  by destruct (slice (bindings s M) offset (length (bindings s M))).
Qed.

Lemma pattern_strings_Handle s M p f :
  pattern_strings (bindings (Handle s M p f) M)
  = pat_String p :: pattern_strings (bindings s M).
Proof. unfold Handle. by rewrite bindings_insert. Qed.

Lemma bindings_Handle_ne s M M' p f :
  M ≠ M' -> bindings (Handle s M p f) M' = bindings s M'.
Proof. intros. unfold Handle. by rewrite bindings_insert_ne. Qed.

Lemma pattern_strings_filter_NoDup patS l :
  NoDup (pattern_strings l) -> NoDup (pattern_strings (filter (kept patS) l)).
Proof.
  unfold pattern_strings. intros Hl. eapply sublist_NoDup; [exact Hl |].
  apply fmap_sublist, sublist_filter.
Qed.

Lemma Handle_no_duplicates s M p f :
  no_duplicates s ->
  pat_String p ∉ pattern_strings (bindings s M) ->
  no_duplicates (Handle s M p f).
Proof.
  intros Hs Hfresh M'. destruct (decide (M = M')) as [<- | Hne].
  - rewrite pattern_strings_Handle. by constructor.
  - by rewrite bindings_Handle_ne.
Qed.

Lemma HandlerDeregister_no_duplicates s M p s' :
  no_duplicates s -> HandlerDeregister s M p = Some s' -> no_duplicates s'.
Proof.
  intros Hs Hrun M'.
  destruct (HandlerDeregister_filter s M p) as (s0 & Hs0 & Hb & Hother & _).
  rewrite Hrun in Hs0. injection Hs0 as <-.
  destruct (decide (M' = M)) as [-> | Hne].
  - rewrite Hb. by apply pattern_strings_filter_NoDup.
  - unfold bindings. rewrite (Hother M' Hne). apply Hs.
Qed.

Lemma run_ops_no_duplicates ops :
  forall s,
    no_duplicates s -> ops_fresh s ops ->
    exists s', run_ops s ops = Some s' /\ no_duplicates s'.
Proof.
  induction ops as [| o ops IH]; intros s Hs Hfresh; [by exists s |].
  cbn [run_ops ops_fresh] in *. destruct Hfresh as [Ho Hrest].
  destruct o as [M p f | M p]; cbn [apply_op] in *.
  - cbn [mbind option_bind]. apply IH; [| done]. by apply Handle_no_duplicates.
  - destruct (HandlerDeregister_filter s M p) as (s0 & Hs0 & _).
    rewrite Hs0 in *. cbn [mbind option_bind]. apply IH; [| done].
    by eapply HandlerDeregister_no_duplicates.
Qed.

(** Claim C2, amended. From the empty table, after any sequence of
    [Handle] and [HandlerDeregister] calls in which no [Handle] is called
    for a pattern string that is bound under that method at the time, every
    method has at most one binding for any pattern string. [Handle] itself
    removes nothing: it puts the new binding in front of the bindings of
    the method, so a pattern string that was bound is bound twice
    afterwards. *)
Theorem no_duplicates_without_reregistration (ops : list (Op HandlerFunc)) :
  ops_fresh ∅ ops ->
  (exists s', run_ops ∅ ops = Some s' /\
              forall M, NoDup (pattern_strings (bindings s' M))) /\
  (forall s M p f,
      pattern_strings (bindings (Handle s M p f) M)
      = pat_String p :: pattern_strings (bindings s M)).
Proof.
  intros Hfresh. split; [| apply pattern_strings_Handle].
  apply run_ops_no_duplicates; [| done].
  intros M. unfold bindings. rewrite lookup_empty. constructor.
Qed.

(** The variant of [Handle] keeps the table free of duplicates whatever
    is registered. *)
Lemma Variant_Handle_replaces s M p f :
  exists s',
    Variant.Handle s M p f = Some s' /\
    bindings s' M
    = filter (kept (pat_String p)) (bindings s M) ++ [ {| pat := p; h := f |} ] /\
    (forall M', M' ≠ M -> s' !! M' = s !! M').
Proof.
  unfold Variant.Handle. rewrite remove_loop_eq.
  destruct (deregister_loop_spec (bindings s M) (pat_String p) (bindings s M) [] 0%nat [])
    as (offset & nh & Hrun & Hle & Hfilter & Hzero); [done | simpl; lia | done |].
  cbn [length] in Hrun. rewrite Hrun.
  destruct (offset =? 0)%nat eqn:Hoff.
  - apply Nat.eqb_eq, Hzero in Hoff as [_ Hall].
    eexists. split; [done |]. rewrite bindings_insert, filter_all by done.
    split; [done |]. intros M' Hne. by rewrite lookup_insert_ne.
  - rewrite slice_to_end by done.
    eexists. split; [done |]. rewrite bindings_insert, <- Hfilter.
    split; [done |]. intros M' Hne. by rewrite lookup_insert_ne.
Qed.

Lemma Variant_Handle_no_duplicates s M p f s' :
  no_duplicates s -> Variant.Handle s M p f = Some s' -> no_duplicates s'.
Proof.
  intros Hs Hrun M'.
  destruct (Variant_Handle_replaces s M p f) as (s0 & Hs0 & Hb & Hother).
  rewrite Hrun in Hs0. injection Hs0 as <-.
  destruct (decide (M' = M)) as [-> | Hne].
  - rewrite Hb. unfold pattern_strings. rewrite fmap_app. cbn [fmap list_fmap pat].
    apply NoDup_app. split; [by apply pattern_strings_filter_NoDup |].
    split; [| apply NoDup_singleton].
    intros x Hx ->%list_elem_of_singleton.
    apply list_elem_of_fmap in Hx as (b & Heq & Hb').
    apply list_elem_of_filter in Hb' as [Hk _]. by apply Hk.
  - unfold bindings. rewrite (Hother M' Hne). apply Hs.
Qed.

End TableProofs.

(** ** Strings *)

Example Split_example : Split "a/b//c" "/" = ["a"; "b"; ""; "c"].
Proof. reflexivity. Qed.

Example Split_empty : Split "" "/" = [""].
Proof. reflexivity. Qed.

Example HasSuffix_example :
  HasSuffix "res:v:1" ":v:1" = true /\ HasSuffix "res:v" ":v:1" = false.
Proof. split; reflexivity. Qed.

Example verb_index_examples :
  verb_index "v:1" "res:v:1" = 3%Z /\
  verb_index "v" ":v" = 0%Z /\
  verb_index "" "res:v:1" = (-1)%Z /\
  verb_index "w" "res:v:1" = (-1)%Z.
Proof. repeat split; reflexivity. Qed.

Lemma Split_not_nil s sep : Split s sep ≠ [].
Proof.
  induction s as [| c s IH]; simpl; [done |].
  destruct (Ascii.eqb c sep); [done |]. by destruct (Split s sep).
Qed.

Lemma last_index_lookup {A} (l : list A) :
  l ≠ [] -> exists x, l !! (length l - 1)%nat = Some x.
Proof.
  intros Hl. apply lookup_lt_is_Some. destruct l; [done | simpl; lia].
Qed.

Lemma substring_all s : substring 0 (String.length s) s = s.
Proof. induction s as [| c s IH]; simpl; [done | by rewrite IH]. Qed.



Lemma length_colon_append v :
  String.length (":" +:+ v) = S (String.length v).
Proof. reflexivity. Qed.

Lemma colon_append v : ":" +:+ v = String ":" v.
Proof. reflexivity. Qed.

Lemma verb_index_range patVerb lastComponent :
  verb_index patVerb lastComponent = (-1)%Z \/
  ((0 <= verb_index patVerb lastComponent)%Z /\
   verb_index patVerb lastComponent
     = (len lastComponent - len patVerb - 1)%Z /\
   HasSuffix lastComponent (":" +:+ patVerb) = true).
Proof.
  unfold verb_index.
  destruct (negb (streq patVerb "")); cbn [andb]; [| by left].
  destruct (HasSuffix lastComponent (":" +:+ patVerb)) eqn:Hs; [| by left].
  right. split; [| done].
  unfold HasSuffix in Hs. apply andb_true_iff in Hs as [Hlen _].
  apply Nat.leb_le in Hlen. rewrite length_colon_append in Hlen.
  unfold len. lia.
Qed.



(** ** Dispatch *)

Section DispatchProofs.

Context {HandlerFunc ReqRest : Type}.
Variable ParseForm : Request ReqRest -> ReqRest * option string.
Variable isPathLengthFallback : Request ReqRest -> bool.
Variable ToUpper : string -> string.

Implicit Types (s : gmap string (list (handler HandlerFunc))).
Implicit Types (hs : list (handler HandlerFunc)).
Implicit Types (b : handler HandlerFunc).
Implicit Types (r : Request ReqRest) (c components : list string).
Implicit Types (order : list (string * list (handler HandlerFunc))).

Local Abbreviation override :=
  (method_override (HandlerFunc := HandlerFunc)
     ParseForm isPathLengthFallback ToUpper).
Local Abbreviation serve := (ServeHTTP_in ParseForm isPathLengthFallback ToUpper).
Local Abbreviation look := (lookup ParseForm isPathLengthFallback).
Local Abbreviation fb_handlers := (fallback_handlers ParseForm isPathLengthFallback).
Local Abbreviation found := (fallback_found ParseForm isPathLengthFallback).
Local Abbreviation fb_loop := (fallback_loop ParseForm isPathLengthFallback).

Lemma last_lookup_pred c x :
  last c = Some x <-> c !! (length c - 1)%nat = Some x.
Proof. rewrite last_lookup. by replace (pred (length c)) with (length c - 1)%nat by lia. Qed.

Lemma method_override_path r tr0 r' :
  override r = inr (tr0, r') ->
  URL_Path r' = URL_Path r /\ Header_MethodOverride r' = Header_MethodOverride r.
Proof.
  unfold method_override.
  destruct (negb _ && _); [| by intros [= <- <-]].
  destruct (ParseForm _) as [rest [err |]]; [done |]. by intros [= <- <-].
Qed.

Lemma primary_loop_first r p f hs c v c' v' params :
  candidate_view p c v = Some (c', v') ->
  pat_Match p c' v' = Some params ->
  primary_loop r ({| pat := p; h := f |} :: hs) c v
    = ([EvMatch p c' v'; EvRUnlock], inl (Invoked f r params)).
Proof.
  unfold candidate_view. cbn [primary_loop pat h].
  destruct (c !! (length c - 1)%nat) as [lastComponent |]; [| done].
  cbn [mbind option_bind].
  destruct (verb_index (pat_Verb p) lastComponent =? 0)%Z; [done |].
  intros [= ->] ->. done.
Qed.


Lemma serve_unfold order s r tr0 r' :
  HasPrefix (URL_Path r) "/" = true ->
  override r = inr (tr0, r') ->
  serve order s r =
    (tr0 ++ fst (look order s r' (Split (str_from (URL_Path r) 1) "/")),
     snd (look order s r' (Split (str_from (URL_Path r) 1) "/"))).
Proof.
  intros Hp Ho. unfold ServeHTTP_in. rewrite Hp, Ho. cbn [negb].
  by destruct (look _ _ _ _).
Qed.


Lemma primary_loop_skip r x pre :
  forall rest c v,
    last c = Some x ->
    (forall b, b ∈ pre ->
       verb_index (pat_Verb (pat b)) x = (-1)%Z /\
       pat_Match (pat b) c v = None) ->
    exists tr,
      primary_loop r (pre ++ rest) c v
      = (tr ++ fst (primary_loop r rest c v), snd (primary_loop r rest c v)).
Proof.
  induction pre as [| b pre IH]; intros rest c v Hl Hpre.
  { exists []. cbn [app]. by destruct (primary_loop r rest c v). }
  cbn [app primary_loop].
  pose proof Hl as Hl'. apply last_lookup_pred in Hl'. rewrite Hl'.
  destruct (Hpre b) as [Hidx Hm]; [left |].
  unfold strip_verb. rewrite Hidx. cbn [Z.eqb Z.ltb Z.compare]. rewrite Hm.
  destruct (IH rest c v Hl) as [tr Htr].
  { intros b' Hb'. apply Hpre. by right. }
  rewrite Htr. by exists (EvMatch (pat b) c v :: tr).
Qed.

(** The round trip for a binding that is not at the front: the bindings
    registered after it come first in the scan, and the handler is still
    reached when none of them matches nor finds its verb at the end of the
    last component. *)
Lemma registered_binding_dispatch s M pre p f post r tr0 r' x params order :
  HasPrefix (URL_Path r) "/" = true ->
  override r = inr (tr0, r') ->
  Method r' = M ->
  bindings s M = pre ++ {| pat := p; h := f |} :: post ->
  last (Split (str_from (URL_Path r) 1) "/") = Some x ->
  (forall b, b ∈ pre ->
     verb_index (pat_Verb (pat b)) x = (-1)%Z /\
     pat_Match (pat b) (Split (str_from (URL_Path r) 1) "/") "" = None) ->
  path_match p (URL_Path r) = Some params ->
  exists tr, serve order s r = (tr, Invoked f r' params).
Proof.
  intros Hp Ho HM Hb Hl Hpre Hm. unfold path_match in Hm.
  destruct (candidate_view p _ "") as [[c v] |] eqn:Hv; [| done].
  cbn [mbind option_bind] in Hm.
  rewrite (serve_unfold _ _ _ _ _ Hp Ho). unfold lookup. rewrite HM, Hb.
  destruct (primary_loop_skip r' x pre ({| pat := p; h := f |} :: post)
              _ "" Hl Hpre) as [tr Htr].
  rewrite Htr, (primary_loop_first r' p f _ _ _ _ _ _ Hv Hm). cbn [fst snd].
  by eexists.
Qed.

(** The verb of the first candidate: a pattern with the verb ["v:1"]
    that is tried on the last component ["res:v:1"] is given ["res"] and
    ["v:1"]. *)
Lemma first_candidate_colon_verb r b hs c v :
  pat_Verb (pat b) = "v:1" ->
  last c = Some "res:v:1" ->
  exists tr,
    fst (primary_loop r (b :: hs) c v)
    = EvMatch (pat b) (<[(length c - 1)%nat := "res"]> c) "v:1" :: tr.
Proof.
  intros Hverb Hl. cbn [primary_loop].
  apply last_lookup_pred in Hl. rewrite Hl, Hverb.
  change (verb_index "v:1" "res:v:1") with 3%Z. cbn [Z.eqb].
  change (strip_verb "v:1" c v "res:v:1")
    with (<[(length c - 1)%nat := "res"]> c, "v:1").
  cbv iota beta.
  destruct (pat_Match _ _ _); [eexists; reflexivity |].
  destruct (primary_loop _ _ _ _). eexists; reflexivity.
Qed.

Lemma strip_verb_cases patVerb c v x :
  ((verb_index patVerb x <= 0)%Z /\ strip_verb patVerb c v x = (c, v)) \/
  ((0 < verb_index patVerb x)%Z /\
   strip_verb patVerb c v x
     = (<[(length c - 1)%nat := str_to x (Z.to_nat (verb_index patVerb x))]> c,
        str_from x (Z.to_nat (verb_index patVerb x + 1)))).
Proof.
  unfold strip_verb. destruct (0 <? verb_index patVerb x)%Z eqn:Hlt.
  - right. apply Z.ltb_lt in Hlt. done.
  - left. apply Z.ltb_ge in Hlt. done.
Qed.

Lemma last_insert_last c x y :
  last c = Some x -> last (<[(length c - 1)%nat := y]> c) = Some y.
Proof.
  intros Hl. apply last_lookup_pred. rewrite length_insert.
  apply list_lookup_insert_eq. destruct c; [done | simpl; lia].
Qed.





Lemma order_entry order s m hs :
  order ≡ₚ map_to_list s -> (m, hs) ∈ order -> bindings s m = hs.
Proof.
  intros Hperm Hin. rewrite Hperm in Hin.
  apply elem_of_map_to_list in Hin. unfold bindings. by rewrite Hin.
Qed.


Lemma fallback_handlers_cases r hs c v :
  (exists tr, fb_handlers r hs c v = (tr, None) /\
              forall b, b ∈ hs -> pat_Match (pat b) c v = None) \/
  (exists pre b post params tr,
      hs = pre ++ b :: post /\
      (forall b', b' ∈ pre -> pat_Match (pat b') c v = None) /\
      pat_Match (pat b) c v = Some params /\
      fb_handlers r hs c v
        = (tr ++ EvMatch (pat b) c v :: fst (found r b params),
           Some (snd (found r b params)))).
Proof.
  induction hs as [| b hs IH].
  { left. exists []. split; [done |]. intros b Hb. inversion Hb. }
  cbn [fallback_handlers].
  destruct (pat_Match (pat b) c v) as [params |] eqn:Hm.
  - right. exists [], b, hs, params, []. split; [done |].
    split; [intros b' Hb'; inversion Hb' |]. split; [done |].
    by destruct (found r b params).
  - destruct IH as [(tr & Hrun & Hnone) | (pre & b0 & post & params & tr & -> & Hpre & Hb0 & Hrun)].
    + left. rewrite Hrun. eexists. split; [done |].
      intros b' [-> | Hb']%elem_of_cons; auto.
    + right. exists (b :: pre), b0, post, params, (EvMatch (pat b) c v :: tr).
      split; [done |]. split.
      { intros b' [-> | Hb']%elem_of_cons; auto. }
      split; [done |]. by rewrite Hrun.
Qed.

Lemma fallback_loop_cases r order c v :
  (exists tr, fb_loop r order c v = (tr, None) /\
     forall m hs b, (m, hs) ∈ order -> m ≠ Method r -> b ∈ hs ->
                    pat_Match (pat b) c v = None) \/
  (exists order1 m pre b post order2 params tr,
      order = order1 ++ (m, pre ++ b :: post) :: order2 /\
      m ≠ Method r /\
      (forall m' hs' b', (m', hs') ∈ order1 -> m' ≠ Method r -> b' ∈ hs' ->
                         pat_Match (pat b') c v = None) /\
      (forall b', b' ∈ pre -> pat_Match (pat b') c v = None) /\
      pat_Match (pat b) c v = Some params /\
      fb_loop r order c v
        = (tr ++ EvMatch (pat b) c v :: fst (found r b params),
           Some (snd (found r b params)))).
Proof.
  induction order as [| [m hs] order IH].
  { left. exists []. split; [done |]. intros m hs b Hin. inversion Hin. }
  cbn [fallback_loop]. unfold streq. case_bool_decide as Hm.
  - destruct IH as [(tr & Hrun & Hnone) | (order1 & m0 & pre & b & post & order2 & params & tr & -> & Hne & H1 & Hpre & Hb & Hrun)].
    + left. exists tr. split; [done |].
      intros m' hs' b' [[= -> ->] | Hin]%elem_of_cons Hne' Hb'; [done |].
      by eapply Hnone.
    + right. exists ((m, hs) :: order1), m0, pre, b, post, order2, params, tr.
      split; [done |]. split; [done |]. split.
      { intros m' hs' b' [[= -> ->] | Hin]%elem_of_cons Hne' Hb'; [done |].
        by eapply H1. }
      done.
  - destruct (fallback_handlers_cases r hs c v)
      as [(tr1 & Hrun1 & Hnone1) | (pre & b & post & params & tr1 & -> & Hpre & Hb & Hrun1)].
    + rewrite Hrun1.
      destruct IH as [(tr & Hrun & Hnone) | (order1 & m0 & pre & b & post & order2 & params & tr & -> & Hne & H1 & Hpre & Hb & Hrun)].
      * left. rewrite Hrun. eexists. split; [done |].
        intros m' hs' b' [[= -> ->] | Hin]%elem_of_cons Hne' Hb'; [by apply Hnone1 |].
        by eapply Hnone.
      * right. rewrite Hrun.
        exists ((m, hs) :: order1), m0, pre, b, post, order2, params, (tr1 ++ tr).
        split; [done |]. split; [done |]. split.
        { intros m' hs' b' [[= -> ->] | Hin]%elem_of_cons Hne' Hb'; [by apply Hnone1 |].
          by eapply H1. }
        do 2 (split; [done |]). by rewrite <- app_assoc.
    + right. rewrite Hrun1.
      exists [], m, pre, b, post, order, params, tr1.
      split; [done |]. split; [done |]. split.
      { intros m' hs' b' Hin. inversion Hin. }
      done.
Qed.

Lemma found_cases r b params :
  (isPathLengthFallback r = false ->
     found r b params = ([EvRUnlock], RoutingError StatusMethodNotAllowed)) /\
  (isPathLengthFallback r = true ->
     forall rest err, ParseForm r = (rest, Some err) ->
       found r b params
         = ([EvRUnlock; EvParseForm r], StatusError InvalidArgument err)) /\
  (isPathLengthFallback r = true ->
     forall rest, ParseForm r = (rest, None) ->
       found r b params
         = ([EvRUnlock; EvParseForm r], Invoked (h b) (set_Rest r rest) params)).
Proof.
  unfold fallback_found. split; [by intros -> |].
  split; intros -> rest; [intros err |]; by intros ->.
Qed.



(** Claim C7. Method override, for every request whose header
    [X-HTTP-Method-Override] is not empty. A path without its leading
    slash is rejected before anything else, and no lookup is made. Beyond
    that: if the path length fallback applies, the method becomes the
    header in upper case and the form is parsed before the lookup, which
    is made with that method; if the form does not parse, the dispatch
    ends there with [InvalidArgument] and the message of the error,
    without any lookup or handler. If the fallback does not apply, the
    lookup is made with the request as it came and nothing is parsed
    before it. *)
Theorem method_override_effect s r order :
  Header_MethodOverride r ≠ "" ->
  let components := Split (str_from (URL_Path r) 1) "/" in
  let r1 := set_Method r (ToUpper (Header_MethodOverride r)) in
  (HasPrefix (URL_Path r) "/" = false ->
     serve order s r = ([], RoutingError StatusBadRequest)) /\
  (HasPrefix (URL_Path r) "/" = true ->
     (isPathLengthFallback r = true ->
        Method r1 = ToUpper (Header_MethodOverride r) /\
        (forall rest err, ParseForm r1 = (rest, Some err) ->
           serve order s r
           = ([EvParseForm r1], StatusError InvalidArgument err)) /\
        (forall rest, ParseForm r1 = (rest, None) ->
           Method (set_Rest r1 rest) = ToUpper (Header_MethodOverride r) /\
           serve order s r
           = (EvParseForm r1
                :: fst (look order s (set_Rest r1 rest) components),
              snd (look order s (set_Rest r1 rest) components)))) /\
     (isPathLengthFallback r = false ->
        serve order s r = look order s r components)).
Proof.
  intros Hh components r1. unfold ServeHTTP_in, method_override.
  split; [by intros -> |]. intros ->. cbn [negb].
  unfold streq. rewrite bool_decide_false by done.
  cbn [negb andb]. split.
  - intros ->. split; [done |]. fold r1. split.
    + intros rest err ->. done.
    + intros rest ->. split; [done |]. fold components.
      by destruct (look order s (set_Rest r1 rest) components).
  - intros ->. fold components. by destruct (look order s r components).
Qed.

Lemma length_str_to x n :
  (n <= String.length x)%nat -> String.length (str_to x n) = n.
Proof.
  unfold str_to. revert n. induction x as [| a x IH]; intros [| n] Hn; simpl in *;
    try done; try lia. rewrite IH; [done | lia].
Qed.

Lemma length_str_to_le x n : (String.length (str_to x n) <= String.length x)%nat.
Proof.
  unfold str_to. revert n. induction x as [| a x IH]; intros [| n]; simpl;
    try lia. specialize (IH n). lia.
Qed.

Lemma views_trans c0 v0 c1 v1 c2 v2 :
  views c0 v0 c1 v1 -> views c1 v1 c2 v2 -> views c0 v0 c2 v2.
Proof.
  intros H1 H2. induction H2 as [| c v x pv c' v' _ IH Hl Hpos Hs]; [done |].
  by eapply views_strip.
Qed.

Lemma views_last_shorter c0 v0 c v x :
  views c0 v0 c v -> last c0 = Some x ->
  exists y, last c = Some y /\ (String.length y <= String.length x)%nat.
Proof.
  intros Hv Hx. induction Hv as [| c v y pv c' v' _ IH Hl Hpos Hs].
  { by exists x. }
  destruct IH as (y' & Hy' & Hle). apply last_lookup_pred in Hl.
  assert (y' = y) as -> by congruence.
  destruct (strip_verb_cases pv c v y) as [[Hn _] | [_ He]]; [lia |].
  rewrite He in Hs. injection Hs as <- <-.
  eexists. split; [by eapply last_insert_last |].
  pose proof (length_str_to_le y (Z.to_nat (verb_index pv y))). lia.
Qed.

Lemma primary_loop_views r hs :
  forall c v tr res,
    primary_loop r hs c v = (tr, res) ->
    (forall p c' v', EvMatch p c' v' ∈ tr -> views c v c' v') /\
    (forall c' v', res = inr (c', v') -> views c v c' v').
Proof.
  induction hs as [| b hs IH]; intros c v tr res; cbn [primary_loop].
  { intros [= <- <-]. split.
    - intros p c' v' Hin. inversion Hin.
    - intros c' v' [= <- <-]. constructor. }
  destruct (c !! (length c - 1)%nat) as [x |] eqn:Hl.
  2: { intros [= <- <-]. split; [intros p c' v' Hin; inversion Hin | done]. }
  destruct (verb_index (pat_Verb (pat b)) x =? 0)%Z eqn:Hz.
  { intros [= <- <-]. split; [| done].
    intros p c' v' Hin. apply list_elem_of_singleton in Hin. done. }
  destruct (strip_verb (pat_Verb (pat b)) c v x) as [c1 v1] eqn:Hs.
  assert (views c v c1 v1) as Hv1.
  { destruct (strip_verb_cases (pat_Verb (pat b)) c v x) as [[_ He] | [Hpos He]].
    - rewrite He in Hs. injection Hs as <- <-. constructor.
    - eapply views_strip; [constructor | done..]. }
  destruct (pat_Match (pat b) c1 v1) as [params |].
  { intros [= <- <-]. split; [| done].
    intros p c' v' [[= -> -> ->] | Hin]%elem_of_cons; [done |].
    apply list_elem_of_singleton in Hin. done. }
  destruct (primary_loop r hs c1 v1) as [tr' res'] eqn:Hrun.
  intros [= <- <-]. destruct (IH _ _ _ _ Hrun) as [Hev Hfin]. split.
  - intros p c' v' [[= -> -> ->] | Hin]%elem_of_cons; [done |].
    eapply views_trans; [done |]. by eapply Hev.
  - intros c' v' ->. eapply views_trans; [done |]. by eapply Hfin.
Qed.

Lemma primary_loop_stable r x hs :
  forall c v tr res,
    last c = Some x ->
    (forall b, b ∈ hs -> verb_index (pat_Verb (pat b)) x = (-1)%Z) ->
    primary_loop r hs c v = (tr, res) ->
    (forall p c' v', EvMatch p c' v' ∈ tr -> c' = c /\ v' = v) /\
    (forall c' v', res = inr (c', v') -> c' = c /\ v' = v).
Proof.
  induction hs as [| b hs IH]; intros c v tr res Hl Hno; cbn [primary_loop].
  { intros [= <- <-]. split.
    - intros p c' v' Hin. inversion Hin.
    - by intros c' v' [= <- <-]. }
  pose proof Hl as Hl'. apply last_lookup_pred in Hl'. rewrite Hl'.
  assert (verb_index (pat_Verb (pat b)) x = (-1)%Z) as Hidx by (apply Hno; left).
  rewrite Hidx. cbn [Z.eqb].
  unfold strip_verb. rewrite Hidx. cbn [Z.ltb Z.compare].
  destruct (pat_Match (pat b) c v) as [params |].
  { intros [= <- <-]. split; [| done].
    intros p c' v' [[= -> -> ->] | Hin]%elem_of_cons; [done |].
    apply list_elem_of_singleton in Hin. done. }
  destruct (primary_loop r hs c v) as [tr' res'] eqn:Hrun.
  intros [= <- <-].
  destruct (IH _ _ _ _ Hl (fun b' Hb' => Hno b' (list_elem_of_further _ _ _ Hb')) Hrun)
    as [Hev Hfin].
  split; [| done].
  intros p c' v' [[= -> -> ->] | Hin]%elem_of_cons; [done |]. by eapply Hev.
Qed.

Lemma found_events r b params p c v :
  EvMatch p c v ∉ fst (found r b params).
Proof.
  unfold fallback_found.
  destruct (isPathLengthFallback r); [destruct (ParseForm r) as [? [|]] |];
    cbn [fst]; intros Hin;
    repeat (apply elem_of_cons in Hin as [Hin | Hin]; [done |]);
    inversion Hin.
Qed.

Lemma fallback_handlers_events r hs c v tr res :
  fb_handlers r hs c v = (tr, res) ->
  forall p c' v', EvMatch p c' v' ∈ tr -> c' = c /\ v' = v.
Proof.
  revert tr res. induction hs as [| b hs IH]; intros tr res; cbn [fallback_handlers].
  { intros [= <- <-] p c' v' Hin. inversion Hin. }
  destruct (pat_Match (pat b) c v) as [params |].
  - pose proof (found_events r b params) as Hf.
    destruct (found r b params) as [tr' out]. intros [= <- <-] p c' v'.
    intros [[= -> -> ->] | Hin]%elem_of_cons; [done |]. by apply Hf in Hin.
  - destruct (fb_handlers r hs c v) as [tr' res'] eqn:Hrun.
    intros [= <- <-] p c' v' [[= -> -> ->] | Hin]%elem_of_cons; [done |].
    by eapply IH.
Qed.

Lemma fallback_loop_events r order c v tr res :
  fb_loop r order c v = (tr, res) ->
  forall p c' v', EvMatch p c' v' ∈ tr -> c' = c /\ v' = v.
Proof.
  revert tr res. induction order as [| [m hs] order IH]; intros tr res;
    cbn [fallback_loop].
  { intros [= <- <-] p c' v' Hin. inversion Hin. }
  destruct (streq m (Method r)); [by apply IH |].
  destruct (fb_handlers r hs c v) as [tr1 [out |]] eqn:Hrun1.
  - intros [= <- <-]. by eapply fallback_handlers_events.
  - destruct (fb_loop r order c v) as [tr2 res2] eqn:Hrun2.
    intros [= <- <-] p c' v' [Hin | Hin]%elem_of_app.
    + by eapply fallback_handlers_events.
    + by eapply IH.
Qed.

Lemma primary_loop_app r (pre : list (handler HandlerFunc)) :
  forall rest c0 v0 trp c v,
    primary_loop r pre c0 v0 = (trp, inr (c, v)) ->
    primary_loop r (pre ++ rest) c0 v0
    = (trp ++ fst (primary_loop r rest c v), snd (primary_loop r rest c v)).
Proof.
  induction pre as [| b pre IH]; intros rest c0 v0 trp c v; cbn [app primary_loop].
  { intros [= <- <- <-]. by destruct (primary_loop r rest c0 v0). }
  destruct (c0 !! (length c0 - 1)%nat) as [x |]; [| done].
  destruct (verb_index (pat_Verb (pat b)) x =? 0)%Z; [done |].
  destruct (strip_verb (pat_Verb (pat b)) c0 v0 x) as [c1 v1].
  destruct (pat_Match (pat b) c1 v1); [done |].
  destruct (primary_loop r pre c1 v1) as [tr' res'] eqn:Hrun.
  intros [= <- ->]. by rewrite (IH rest _ _ _ _ _ Hrun).
Qed.

(** Claim C10, amended. When a candidate of the loop finds its verb at
    the end of the last component, at a positive index, the component is
    overwritten with what is before the colon and the verb is kept, before
    [Match] is called. If that [Match] fails, no later call of [Match], in
    the loop over the method or in the scan of the other methods, sees the
    last component as the candidate found it: it sees a shorter one. If
    moreover no later candidate of the loop finds its own verb on the
    stripped component, every later call is given the stripped components
    and the kept verb. *)
Theorem stripped_component_persists s r order
    (pre : list (handler HandlerFunc)) b rest components trp c v x :
  bindings s (Method r) = pre ++ b :: rest ->
  primary_loop r pre components "" = (trp, inr (c, v)) ->
  last c = Some x ->
  let idx := verb_index (pat_Verb (pat b)) x in
  let stripped := <[(length c - 1)%nat := str_to x (Z.to_nat idx)]> c in
  let memo := str_from x (Z.to_nat (idx + 1)) in
  (0 < idx)%Z ->
  pat_Match (pat b) stripped memo = None ->
  exists tr,
    fst (look order s r components)
      = EvRLock :: trp ++ EvMatch (pat b) stripped memo :: tr /\
    (forall p c' v', EvMatch p c' v' ∈ tr ->
       exists y, last c' = Some y /\ (String.length y < String.length x)%nat) /\
    ((forall b', b' ∈ rest ->
        verb_index (pat_Verb (pat b')) (str_to x (Z.to_nat idx)) = (-1)%Z) ->
     forall p c' v', EvMatch p c' v' ∈ tr -> c' = stripped /\ v' = memo).
Proof.
  intros Hb Hpre Hl idx stripped memo Hpos Hfail.
  assert (last stripped = Some (str_to x (Z.to_nat idx))) as Hls
    by (by eapply last_insert_last).
  assert (String.length (str_to x (Z.to_nat idx)) < String.length x)%nat as Hlen.
  { destruct (verb_index_range (pat_Verb (pat b)) x) as [Hm | (_ & Hidx & _)];
      [fold idx in Hm; lia |].
    fold idx in Hidx. unfold len in Hidx. rewrite length_str_to; lia. }
  unfold lookup. rewrite Hb, (primary_loop_app r pre (b :: rest) _ _ _ _ _ Hpre).
  cbn [primary_loop].
  pose proof Hl as Hl'. apply last_lookup_pred in Hl'. rewrite Hl'.
  fold idx. destruct (idx =? 0)%Z eqn:Hz; [apply Z.eqb_eq in Hz; lia |].
  destruct (strip_verb_cases (pat_Verb (pat b)) c v x)
    as [[Hn _] | [_ He]]; [fold idx in Hn; lia |].
  rewrite He. fold idx stripped memo. rewrite Hfail.
  destruct (primary_loop r rest stripped memo) as [tr1 res1] eqn:Hrun.
  destruct (primary_loop_views _ _ _ _ _ _ Hrun) as [Hev Hfin].
  assert (forall c' v', views stripped memo c' v' ->
            exists y, last c' = Some y /\ (String.length y < String.length x)%nat)
    as Hshort.
  { intros c' v' Hv.
    destruct (views_last_shorter _ _ _ _ _ Hv Hls) as (y & Hy & Hle).
    exists y. split; [done | lia]. }
  cbn [fst snd].
  destruct res1 as [out | [c1 v1]].
  - exists tr1. split; [done |]. split.
    + intros p c' v' Hin. eapply Hshort. by eapply Hev.
    + intros Hno p c' v' Hin.
      destruct (primary_loop_stable _ _ _ _ _ _ _ Hls Hno Hrun) as [Hst _].
      by eapply Hst.
  - destruct (fb_loop r order c1 v1) as [tr2 res2] eqn:Hrun2.
    pose proof (fallback_loop_events _ _ _ _ _ _ Hrun2) as Hev2.
    assert (forall tr3 p c' v', (forall p c' v', EvMatch p c' v' ∉ tr3) ->
              EvMatch p c' v' ∈ tr1 ++ tr2 ++ tr3 ->
              EvMatch p c' v' ∈ tr1 \/ (c' = c1 /\ v' = v1)) as Hsplit.
    { intros tr3 p c' v' H3 [Hin | [Hin | Hin]%elem_of_app]%elem_of_app.
      - by left.
      - right. by eapply Hev2.
      - by apply H3 in Hin. }
    assert (forall p c' v', EvMatch p c' v' ∉ [EvRUnlock (ReqRest := ReqRest)]) as Hu.
    { intros p c' v' Hin. apply list_elem_of_singleton in Hin. done. }
    assert (forall p c' v', EvMatch p c' v' ∉ @nil (Event ReqRest)) as Hn.
    { intros p c' v' Hin. inversion Hin. }
    assert (exists tr,
               fst (match res2 with
                    | Some out =>
                        (EvRLock :: (trp ++ EvMatch (pat b) stripped memo :: tr1) ++ tr2,
                         out)
                    | None =>
                        (EvRLock :: (trp ++ EvMatch (pat b) stripped memo :: tr1)
                                 ++ tr2 ++ [EvRUnlock],
                         RoutingError StatusNotFound)
                    end)
               = EvRLock :: trp ++ EvMatch (pat b) stripped memo :: tr /\
               forall p c' v', EvMatch p c' v' ∈ tr ->
                 EvMatch p c' v' ∈ tr1 \/ (c' = c1 /\ v' = v1)) as (tr & -> & Htr).
    { destruct res2.
      - exists (tr1 ++ tr2). split; [by rewrite <- app_assoc |].
        intros p c' v' Hin. apply (Hsplit [] p c' v' Hn). by rewrite app_nil_r.
      - exists (tr1 ++ tr2 ++ [EvRUnlock]). split; [by rewrite <- app_assoc |].
        intros p c' v' Hin. by apply (Hsplit _ p c' v' Hu). }
    exists tr. split; [done |]. split.
    + intros p c' v' [Hin | [-> ->]]%Htr.
      * eapply Hshort. by eapply Hev.
      * eapply Hshort. by eapply Hfin.
    + intros Hno.
      destruct (primary_loop_stable _ _ _ _ _ _ _ Hls Hno Hrun) as [Hst Hstf].
      intros p c' v' [Hin | [-> ->]]%Htr; [by eapply Hst | by eapply Hstf].
Qed.

Lemma primary_loop_shape r hs :
  forall c v tr res,
    c ≠ [] ->
    primary_loop r hs c v = (tr, res) ->
    match res with
    | inl out =>
        out ≠ Panic /\ exists pre, tr = pre ++ [EvRUnlock] /\ Forall is_match pre
    | inr _ => Forall is_match tr
    end.
Proof.
  induction hs as [| b hs IH]; intros c v tr res Hc; cbn [primary_loop].
  { intros [= <- <-]. constructor. }
  destruct (last_index_lookup c Hc) as [x Hx]. rewrite Hx.
  destruct (verb_index (pat_Verb (pat b)) x =? 0)%Z.
  { intros [= <- <-]. split; [done |]. by exists []. }
  destruct (strip_verb (pat_Verb (pat b)) c v x) as [c1 v1] eqn:Hs.
  assert (c1 ≠ []) as Hc1.
  { destruct (strip_verb_cases (pat_Verb (pat b)) c v x) as [[_ He] | [_ He]];
      rewrite He in Hs; injection Hs as <- <-; [done |].
    intros Hnil. apply (f_equal length) in Hnil. rewrite length_insert in Hnil.
    by destruct c. }
  destruct (pat_Match (pat b) c1 v1) as [params |].
  { intros [= <- <-]. split; [done |]. exists [EvMatch (pat b) c1 v1].
    split; [done |]. constructor; [by eexists _, _, _ | constructor]. }
  destruct (primary_loop r hs c1 v1) as [tr' res'] eqn:Hrun.
  intros [= <- <-]. specialize (IH _ _ _ _ Hc1 Hrun).
  destruct res' as [out |].
  - destruct IH as (Hout & pre & -> & Hpre). split; [done |].
    exists (EvMatch (pat b) c1 v1 :: pre). split; [done |].
    constructor; [by eexists _, _, _ | done].
  - constructor; [by eexists _, _, _ | done].
Qed.

Lemma found_shape r b params :
  snd (found r b params) ≠ Panic /\
  exists post, fst (found r b params) = EvRUnlock :: post /\ Forall is_parse post.
Proof.
  unfold fallback_found.
  destruct (isPathLengthFallback r); [destruct (ParseForm r) as [? [|]] |];
    cbn [fst snd]; (split; [done |]); eexists; (split; [done |]);
    repeat constructor; by eexists.
Qed.

Lemma fallback_handlers_shape r hs c v tr res :
  fb_handlers r hs c v = (tr, res) ->
  match res with
  | Some out =>
      out ≠ Panic /\
      exists pre post, tr = pre ++ EvRUnlock :: post /\
                       Forall is_match pre /\ Forall is_parse post
  | None => Forall is_match tr
  end.
Proof.
  revert tr res. induction hs as [| b hs IH]; intros tr res; cbn [fallback_handlers].
  { intros [= <- <-]. constructor. }
  destruct (pat_Match (pat b) c v) as [params |].
  - destruct (found_shape r b params) as (Hout & post & Hpost & Hparse).
    destruct (found r b params) as [tr' out]. cbn [fst snd] in *.
    intros [= <- <-]. split; [done |]. subst tr'.
    exists [EvMatch (pat b) c v], post. split; [done |].
    split; [| done]. constructor; [by eexists _, _, _ | constructor].
  - destruct (fb_handlers r hs c v) as [tr' res'] eqn:Hrun.
    intros [= <- <-]. specialize (IH _ _ eq_refl). destruct res' as [out |].
    + destruct IH as (Hout & pre & post & -> & Hpre & Hpost). split; [done |].
      exists (EvMatch (pat b) c v :: pre), post. split; [done |].
      split; [| done]. constructor; [by eexists _, _, _ | done].
    + constructor; [by eexists _, _, _ | done].
Qed.

Lemma fallback_loop_shape r order c v tr res :
  fb_loop r order c v = (tr, res) ->
  match res with
  | Some out =>
      out ≠ Panic /\
      exists pre post, tr = pre ++ EvRUnlock :: post /\
                       Forall is_match pre /\ Forall is_parse post
  | None => Forall is_match tr
  end.
Proof.
  revert tr res. induction order as [| [m hs] order IH]; intros tr res;
    cbn [fallback_loop].
  { intros [= <- <-]. constructor. }
  destruct (streq m (Method r)); [by apply IH |].
  destruct (fb_handlers r hs c v) as [tr1 res1] eqn:Hrun1.
  pose proof (fallback_handlers_shape _ _ _ _ _ _ Hrun1) as H1.
  destruct res1 as [out |].
  - by intros [= <- <-].
  - destruct (fb_loop r order c v) as [tr2 res2] eqn:Hrun2.
    intros [= <- <-]. specialize (IH _ _ eq_refl). destruct res2 as [out |].
    + destruct IH as (Hout & pre & post & -> & Hpre & Hpost). split; [done |].
      exists (tr1 ++ pre), post. split; [by rewrite app_assoc |].
      split; [by apply Forall_app | done].
    + by apply Forall_app.
Qed.

(** Every lookup takes the read lock once, calls [Match] only while it
    holds the lock, and releases it before it parses the form and before
    it calls an error handler or a handler. *)
Lemma lookup_shape order s r c :
  c ≠ [] ->
  snd (look order s r c) ≠ Panic /\
  exists pre post,
    fst (look order s r c) = EvRLock :: pre ++ EvRUnlock :: post /\
    Forall is_match pre /\ Forall is_parse post.
Proof.
  intros Hc. unfold lookup.
  destruct (primary_loop r (bindings s (Method r)) c "") as [tr1 res1] eqn:Hrun1.
  pose proof (primary_loop_shape _ _ _ _ _ _ Hc Hrun1) as H1.
  destruct res1 as [out | [c1 v1]].
  { destruct H1 as (Hout & pre & -> & Hpre). split; [done |].
    exists pre, []. split; [done |]. split; [done | constructor]. }
  destruct (fb_loop r order c1 v1) as [tr2 res2] eqn:Hrun2.
  pose proof (fallback_loop_shape _ _ _ _ _ _ Hrun2) as H2.
  destruct res2 as [out |].
  - destruct H2 as (Hout & pre & post & -> & Hpre & Hpost). split; [done |].
    exists (tr1 ++ pre), post. split; [by rewrite app_assoc |].
    split; [by apply Forall_app | done].
  - split; [done |]. exists (tr1 ++ tr2), []. split; [by rewrite app_assoc |].
    split; [by apply Forall_app | constructor].
Qed.

Lemma ServeHTTP_total s r :
  exists res, ServeHTTP ParseForm isPathLengthFallback ToUpper s r res.
Proof. eexists. by exists (map_to_list s). Qed.

End DispatchProofs.

(** ** Goroutines *)

Section GoroutineProofs.

Context {HandlerFunc ReqRest : Type}.
Variable ParseForm : Request ReqRest -> ReqRest * option string.
Variable isPathLengthFallback : Request ReqRest -> bool.
Variable ToUpper : string -> string.

Local Abbreviation Thr := (Thread HandlerFunc ReqRest).
Local Abbreviation Wld := (World HandlerFunc ReqRest).
Local Abbreviation tstep := (thread_step ParseForm isPathLengthFallback ToUpper).
Local Abbreviation wstep := (step ParseForm isPathLengthFallback ToUpper).
Local Abbreviation reach := (reachable ParseForm isPathLengthFallback ToUpper).
Local Abbreviation runs := (runs_without ParseForm isPathLengthFallback ToUpper).

Implicit Types (t : Thr) (w : Wld) (l : list Thr).

Lemma sum_list_insert (f : Thr -> nat) l i t t' :
  l !! i = Some t ->
  (sum_list (f <$> <[i := t']> l) + f t = sum_list (f <$> l) + f t')%nat.
Proof.
  revert i. induction l as [| a l IH]; intros [| i] Hi; simpl in *; try done.
  - injection Hi as ->. lia.
  - specialize (IH i Hi). unfold fmap in IH. lia.
Qed.

Lemma sum_list_pos (f : Thr -> nat) l :
  (0 < sum_list (f <$> l))%nat -> exists i t, l !! i = Some t /\ (0 < f t)%nat.
Proof.
  induction l as [| a l IH]; simpl; [lia |]. intros Hpos.
  destruct (decide (0 < f a)%nat) as [Ha | Ha].
  - by exists 0%nat, a.
  - destruct IH as (i & t & Hi & Ht); [unfold fmap; lia |]. by exists (S i), t.
Qed.

Lemma sum_list_le (f g : Thr -> nat) l :
  Forall (fun t => f t <= g t)%nat l ->
  (sum_list (f <$> l) <= sum_list (g <$> l))%nat.
Proof. induction 1; simpl in *; unfold fmap in *; lia. Qed.

Lemma thread_step_wf s n wr t s' n' wr' t' :
  tstep s n wr t s' n' wr' t' -> thread_wf t -> thread_wf t'.
Proof.
  destruct 1; cbn [thread_wf]; try done.
  - intros _. apply Split_not_nil.
  - intros Hc. destruct (lookup_shape ParseForm isPathLengthFallback order s r c Hc)
      as (_ & pre & post & Heq & Hpre & Hpost).
    rewrite H0 in Heq. cbn [fst] in Heq. injection Heq as ->. by exists pre, post.
  - intros (pre & post & Heq & Hpre & Hpost).
    destruct pre as [| e pre]; [done |]. injection Heq as <- ->.
    exists pre, post. split; [done |]. split; [by inversion Hpre | done].
Qed.

Lemma thread_step_locks s n wr t s' n' wr' t' :
  tstep s n wr t s' n' wr' t' ->
  (n' + read_locks t = n + read_locks t')%nat /\
  ((if wr' then 1 else 0) + write_locks t
   = (if wr then 1 else 0) + write_locks t')%nat /\
  ((wr = true -> n = 0%nat) -> wr' = true -> n' = 0%nat).
Proof.
  destruct 1; cbn [read_locks write_locks]; repeat split; try done; try lia.
  intros Hex Hwr. specialize (Hex Hwr). lia.
Qed.

Lemma step_invariant w i w' :
  lock_invariant w -> wstep w i w' -> lock_invariant w'.
Proof.
  intros [Hr Hw Hex Hwf] [t s' n' wr' t' Hi Hstep].
  destruct (thread_step_locks _ _ _ _ _ _ _ _ Hstep) as (Hrd & Hwr & Hex').
  pose proof (sum_list_insert read_locks _ _ _ t' Hi) as Hsr.
  pose proof (sum_list_insert write_locks _ _ _ t' Hi) as Hsw.
  split; cbn [w_readers w_writer w_threads].
  - lia.
  - destruct wr', (w_writer w); lia.
  - by apply Hex'.
  - apply Forall_insert; [done |].
    eapply thread_step_wf; [done |]. by eapply Forall_lookup_1.
Qed.

Lemma initial_invariant w : initial w -> lock_invariant w.
Proof.
  intros (Hr & Hw & Hall).
  assert (sum_list (read_locks <$> w_threads w) = 0%nat /\
          sum_list (write_locks <$> w_threads w) = 0%nat /\
          Forall thread_wf (w_threads w)) as (H1 & H2 & H3).
  { induction Hall as [| t l Ht _ (I1 & I2 & I3)]; [by repeat constructor |].
    destruct t; try done; simpl; unfold fmap in *; rewrite ?I1, ?I2;
      repeat split; auto; by constructor. }
  split; [congruence | by rewrite Hw | intros; congruence | done].
Qed.

Lemma reachable_invariant w : reach w -> lock_invariant w.
Proof.
  induction 1 as [w Hinit | w i w' _ IH Hstep].
  - by apply initial_invariant.
  - by eapply step_invariant.
Qed.

(** Readers and a writer never hold the lock together. *)
Lemma reachable_exclusive w :
  reach w -> w_writer w = true -> w_readers w = 0%nat.
Proof. intros Hw. by destruct (reachable_invariant w Hw). Qed.

Lemma sum_list_member (f : Thr -> nat) l i t :
  l !! i = Some t -> (f t <= sum_list (f <$> l))%nat.
Proof.
  revert i. induction l as [| a l IH]; intros [| i] Hi; simpl in *; try done.
  - injection Hi as ->. lia.
  - specialize (IH i Hi). unfold fmap in *. lia.
Qed.

Lemma apply_op_total (s : gmap string (list (handler HandlerFunc))) o :
  exists s', apply_op s o = Some s'.
Proof.
  destruct o as [meth p f | meth p]; cbn [apply_op]; [by eexists |].
  destruct (HandlerDeregister_filter s meth p) as (s' & Hs' & _). by exists s'.
Qed.

(** A goroutine that holds a lock can always make its next step, which
    brings it closer to the release. *)
Lemma locked_thread_steps w k t :
  lock_invariant w ->
  w_threads w !! k = Some t ->
  (0 < locked_steps t)%nat ->
  exists w' t',
    wstep w k w' /\
    w_threads w' = <[k := t']> (w_threads w) /\
    (locked_steps t' < locked_steps t)%nat.
Proof.
  intros [Hr Hw Hex Hwf] Hk Hpos.
  pose proof (Forall_lookup_1 _ _ _ _ Hwf Hk) as Ht.
  destruct w as [s n wr l]. cbn [w_readers w_writer w_threads w_table] in *.
  destruct t as [| | tr out | | | | o |]; cbn [locked_steps] in Hpos; try lia.
  - destruct Ht as (pre & post & -> & Hpre & Hpost).
    destruct pre as [| e pre].
    + pose proof (sum_list_member read_locks _ _ _ Hk) as Hge.
      cbn [read_locks] in Hge. destruct n as [| n]; [lia |].
      eexists _, (TUnlocked post out). split.
      { eapply step_at; [done |]. cbn [w_table w_readers w_writer]. apply step_RUnlock. }
      split; [done |]. cbn [locked_steps app length]. lia.
    + inversion Hpre as [| ? ? (p & c & v & ->) Hpre']; subst.
      eexists _, (TLocked (pre ++ EvRUnlock :: post) out).
      split.
      { eapply step_at; [done |]. cbn [w_table w_readers w_writer app]. apply step_Match. }
      split; [done |]. cbn [locked_steps app length]. lia.
  - pose proof (sum_list_member write_locks _ _ _ Hk) as Hge.
    cbn [write_locks] in Hge. destruct wr; [| lia].
    rewrite (Hex eq_refl) in *.
    destruct (apply_op_total s o) as [s' Hs'].
    eexists _, TDone. split.
    { eapply step_at; [done |]. cbn [w_table w_readers w_writer].
      by apply step_mutate_Unlock. }
    split; [done |]. cbn [locked_steps]. lia.
Qed.

Lemma runs_without_trans i w1 w2 w3 :
  runs i w1 w2 -> runs i w2 w3 -> runs i w1 w3.
Proof.
  induction 1 as [| w k w' w'' Hk Hstep _ IH]; [done |].
  intros H3. eapply runs_without_step; [done.. | by apply IH].
Qed.

Lemma locks_le_locked_steps t :
  thread_wf t ->
  (read_locks t <= locked_steps t)%nat /\ (write_locks t <= locked_steps t)%nat.
Proof.
  destruct t; cbn [read_locks write_locks locked_steps thread_wf]; try lia.
  intros (pre & post & -> & _). rewrite length_app. cbn [length]. lia.
Qed.

(** The goroutines that hold a lock can release it without any step of a
    goroutine that holds none. *)
Lemma locks_drain i n :
  forall w,
    lock_invariant w ->
    (sum_list (locked_steps <$> w_threads w) <= n)%nat ->
    (forall t, w_threads w !! i = Some t -> locked_steps t = 0%nat) ->
    exists w',
      runs i w w' /\ lock_invariant w' /\
      w_readers w' = 0%nat /\ w_writer w' = false /\
      (forall k t, w_threads w !! k = Some t -> locked_steps t = 0%nat ->
                   w_threads w' !! k = Some t).
Proof.
  induction n as [| n IH]; intros w Hinv Hle Hi.
  - exists w. split; [constructor |]. split; [done |].
    destruct Hinv as [Hr Hw Hex Hwf].
    assert (sum_list (read_locks <$> w_threads w) = 0%nat /\
            sum_list (write_locks <$> w_threads w) = 0%nat) as [H1 H2].
    { pose proof (sum_list_le read_locks locked_steps (w_threads w)) as L1.
      pose proof (sum_list_le write_locks locked_steps (w_threads w)) as L2.
      split; [apply Nat.le_0_r; etrans; [apply L1 | done]
             | apply Nat.le_0_r; etrans; [apply L2 | done]];
        eapply Forall_impl; [exact Hwf | | exact Hwf |];
        intros t Ht; by apply locks_le_locked_steps. }
    split; [congruence |]. split; [| done].
    rewrite H2 in Hw. by destruct (w_writer w).
  - destruct (decide (sum_list (locked_steps <$> w_threads w) <= n)%nat)
      as [Hn | Hn]; [by apply IH |].
    destruct (sum_list_pos locked_steps (w_threads w)) as (k & t & Hk & Hpos);
      [lia |].
    destruct (locked_thread_steps w k t Hinv Hk Hpos) as (w1 & t' & Hstep & Hth & Hlt).
    assert (k ≠ i) as Hki.
    { intros ->. specialize (Hi t Hk). lia. }
    pose proof (sum_list_insert locked_steps _ _ _ t' Hk) as Hsum.
    destruct (IH w1) as (w' & Hruns & Hinv' & Hr' & Hw' & Hkeep).
    + by eapply step_invariant.
    + rewrite Hth. lia.
    + intros ti. rewrite Hth, list_lookup_insert_ne by done. apply Hi.
    + exists w'. split; [by eapply runs_without_step |].
      do 3 (split; [done |]). intros k' t0 Hk' H0. apply Hkeep; [| done].
      rewrite Hth, list_lookup_insert_ne; [done |]. intros ->.
      rewrite Hk in Hk'. injection Hk' as ->. lia.
Qed.

(** Claim C8. No lock during a handler. In every state that the
    goroutines can reach, the read lock is held only by goroutines between
    [RLock] and [RUnlock]: a goroutine inside a handler holds none. So if
    goroutine [i] is inside a handler and goroutine [j] is a call of
    [Handle] or [HandlerDeregister] that waits to begin, there is a run in
    which [i] makes no step and [j] returns, its change made to the
    table. *)
Theorem handler_does_not_block_mutation w i j f r pathParams o :
  reach w ->
  w_threads w !! i = Some (THandler f r pathParams) ->
  w_threads w !! j = Some (TMutate o) ->
  w_readers w = sum_list (read_locks <$> w_threads w) /\
  exists w' s0,
    runs i w w' /\
    w_threads w' !! i = Some (THandler f r pathParams) /\
    w_threads w' !! j = Some TDone /\
    apply_op s0 o = Some (w_table w').
Proof.
  intros Hreach Hi Hj. pose proof (reachable_invariant w Hreach) as Hinv.
  split; [by destruct Hinv |].
  assert (j ≠ i) as Hji by (intros ->; congruence).
  destruct (locks_drain i _ w Hinv (Nat.le_refl _))
    as (w1 & Hruns & Hinv1 & Hr1 & Hw1 & Hkeep).
  { intros t Ht. rewrite Hi in Ht. by injection Ht as <-. }
  pose proof (Hkeep i _ Hi eq_refl) as Hi1.
  pose proof (Hkeep j _ Hj eq_refl) as Hj1.
  destruct w1 as [s1 n1 wr1 l1]. cbn [w_readers w_writer w_threads] in *.
  subst n1 wr1.
  destruct (apply_op_total s1 o) as [s2 Hs2].
  assert (j < length l1)%nat as Hlen by (by eapply lookup_lt_Some).
  exists {| w_table := s2; w_readers := 0; w_writer := false;
            w_threads := <[j := TDone]> (<[j := TMutateLocked o]> l1) |}, s1.
  split.
  { eapply runs_without_trans; [exact Hruns |].
    eapply runs_without_step; [exact Hji | |].
    { eapply step_at; [exact Hj1 |]. apply step_Lock. }
    eapply runs_without_step; [exact Hji | | constructor].
    eapply step_at; cbn [w_threads w_table w_readers w_writer].
    - by apply list_lookup_insert_eq.
    - by apply step_mutate_Unlock. }
  cbn [w_threads w_table]. split; [| split; [| done]].
  - by rewrite !list_lookup_insert_ne.
  - apply list_lookup_insert_eq. by rewrite length_insert.
Qed.

End GoroutineProofs.

(** ** More on the table *)

Section TableMore.

Context {HandlerFunc : Type}.
Implicit Types (s : gmap string (list (handler HandlerFunc))).
Implicit Types (l : list (handler HandlerFunc)).

Lemma filter_kept_Forall patS l : Forall (kept patS) (filter (kept patS) l).
Proof.
  apply Forall_forall. intros b Hb. by apply list_elem_of_filter in Hb as [? _].
Qed.

Lemma filter_split_length patS l :
  (length (filter (kept patS) l)
   + length (filter (fun b => pat_String (pat b) = patS) l)
   = length l)%nat.
Proof.
  induction l as [| b l IH]; [done |].
  destruct (decide (pat_String (pat b) = patS)) as [Heq | Hne].
  - rewrite filter_cons_False by (unfold kept; tauto).
    rewrite (filter_cons_True (fun b => pat_String (pat b) = patS)) by done.
    simpl. lia.
  - rewrite filter_cons_True by done.
    rewrite (filter_cons_False (fun b => pat_String (pat b) = patS)) by done.
    simpl. lia.
Qed.

(** The table that [HandlerDeregister] returns. *)
Lemma HandlerDeregister_table s M p :
  HandlerDeregister s M p
  = Some (if decide (bindings s M = []) then s
          else <[M := filter (kept (pat_String p)) (bindings s M)]> s).
Proof.
  destruct (HandlerDeregister_filter s M p) as (s' & Hrun & Hb & Hother & _).
  rewrite Hrun. f_equal. case_decide as Hnil.
  - unfold HandlerDeregister in Hrun. rewrite Hnil in Hrun. simpl in Hrun.
    congruence.
  - apply map_eq. intros M'. destruct (decide (M' = M)) as [-> | Hne].
    + rewrite lookup_insert_eq. rewrite <- Hb.
      unfold HandlerDeregister in Hrun.
      destruct (bindings s M) as [| b0 l0] eqn:Hbs; [done |].
      change (length (b0 :: l0) =? 0)%nat with false in Hrun. cbv iota in Hrun.
      destruct (deregister_loop _ _ _ _ _ _) as [[offset nh] |]; [| done].
      cbn [mbind option_bind] in Hrun.
      destruct (slice _ _ _); [| done]. cbn [mbind option_bind] in Hrun.
      injection Hrun as <-. unfold bindings. by rewrite lookup_insert_eq.
    + rewrite lookup_insert_ne by done. by apply Hother.
Qed.

Lemma bindings_nil_insert s M :
  bindings s M ≠ [] -> is_Some (s !! M).
Proof. unfold bindings. destruct (s !! M); [by eexists | done]. Qed.

(** Property X2. Deregistering twice is deregistering once: the second
    call returns the table that the first one made. *)
Theorem HandlerDeregister_idempotent s M p :
  exists s',
    HandlerDeregister s M p = Some s' /\ HandlerDeregister s' M p = Some s'.
Proof.
  destruct (HandlerDeregister_filter s M p) as (s' & Hrun & Hb & _).
  exists s'. split; [done |].
  destruct (HandlerDeregister_filter s' M p) as (s'' & Hrun' & _ & _ & Hsame).
  rewrite Hrun'. f_equal. apply Hsame. rewrite Hb. apply filter_kept_Forall.
Qed.

Lemma dom_Handle s M p f : dom (Handle s M p f) = {[ M ]} ∪ dom s.
Proof. unfold Handle. by rewrite dom_insert_L. Qed.

Lemma dom_HandlerDeregister s M p s' :
  HandlerDeregister s M p = Some s' -> dom s' = dom s.
Proof.
  rewrite HandlerDeregister_table. intros [= <-]. case_decide as Hnil; [done |].
  rewrite dom_insert_L. apply bindings_nil_insert in Hnil.
  apply elem_of_dom in Hnil. apply subseteq_union_1_L.
  by apply singleton_subseteq_l.
Qed.

(** Property X3. No entry of the map is ever deleted. After any
    sequence of calls the methods of the map are those of before and
    those that some [Handle] of the sequence was called for:
    [HandlerDeregister] neither removes the entry of a method that it has
    emptied nor makes an entry for a method that had none. *)
Theorem run_ops_methods (ops : list (Op HandlerFunc)) :
  forall s,
    exists s', run_ops s ops = Some s' /\ dom s' = dom s ∪ handled_methods ops.
Proof.
  induction ops as [| o ops IH]; intros s.
  { exists s. split; [done |]. cbn [handled_methods]. by rewrite union_empty_r_L. }
  cbn [run_ops]. destruct o as [M p f | M p]; cbn [apply_op handled_methods].
  - cbn [mbind option_bind]. destruct (IH (Handle s M p f)) as (s' & Hrun & Hdom).
    exists s'. split; [done |]. rewrite Hdom, dom_Handle.
    by rewrite (union_comm_L {[ M ]} (dom s)), union_assoc_L.
  - destruct (HandlerDeregister_filter s M p) as (s1 & Hs1 & _).
    rewrite Hs1. cbn [mbind option_bind].
    destruct (IH s1) as (s' & Hrun & Hdom). exists s'. split; [done |].
    by rewrite Hdom, (dom_HandlerDeregister _ _ _ _ Hs1).
Qed.

(** Property X4. A registration that is taken back: [Handle] followed
    by [HandlerDeregister] of the same method and pattern leaves under the
    method the bindings of before without those that had the pattern
    string, so the very bindings of before when none had it. The table is
    not always the one of before: a method that had no entry has one now,
    with an empty slice. *)
Theorem Handle_then_HandlerDeregister s M p f :
  exists s',
    HandlerDeregister (Handle s M p f) M p = Some s' /\
    s' !! M = Some (filter (kept (pat_String p)) (bindings s M)) /\
    (Forall (kept (pat_String p)) (bindings s M) ->
     bindings s' M = bindings s M) /\
    (s !! M = None -> s' !! M = Some []) /\
    (forall M', M' ≠ M -> s' !! M' = s !! M').
Proof.
  rewrite HandlerDeregister_table.
  assert (bindings (Handle s M p f) M = {| pat := p; h := f |} :: bindings s M)
    as Hb by (unfold Handle; apply bindings_insert).
  rewrite Hb, decide_False by done.
  eexists. split; [done |]. unfold Handle. rewrite insert_insert_eq.
  rewrite filter_cons_False by (unfold kept; cbn; tauto).
  split; [by rewrite lookup_insert_eq |]. split; [| split].
  - intros Hall. rewrite bindings_insert. by apply filter_all.
  - intros Hnone. rewrite lookup_insert_eq. unfold bindings. by rewrite Hnone.
  - intros M' Hne. by rewrite lookup_insert_ne.
Qed.

(** The table that [HandlerDeregister] returns, with the operations of
    finite maps. *)
Lemma HandlerDeregister_alter s M p :
  HandlerDeregister s M p
  = Some (alter (filter (kept (pat_String p))) M s).
Proof.
  rewrite HandlerDeregister_table. f_equal. apply map_eq. intros K.
  rewrite lookup_alter. case_decide as Hnil.
  - case_decide as HK; [| done]. subst K. unfold bindings in Hnil.
    destruct (s !! M) as [l |]; simpl in *; [by subst l | done].
  - case_decide as HK.
    + subst K. rewrite lookup_insert_eq. unfold bindings in *.
      by destruct (s !! M) as [l |].
    + by rewrite lookup_insert_ne.
Qed.

Lemma filter_kept_comm patS patS' l :
  filter (kept patS) (filter (kept patS') l)
  = filter (kept patS') (filter (kept patS) l).
Proof.
  induction l as [| b l IH]; [done |].
  destruct (decide (kept patS b)) as [H1 | H1];
    destruct (decide (kept patS' b)) as [H2 | H2];
    repeat (first [ rewrite (filter_cons_True (kept patS) b) by done
                  | rewrite (filter_cons_False (kept patS) b) by done
                  | rewrite (filter_cons_True (kept patS') b) by done
                  | rewrite (filter_cons_False (kept patS') b) by done ]);
    by rewrite ?IH.
Qed.

(** Property X5. Two deregistrations can be made in either order: the
    table is the same, whether the methods and the patterns are the same
    or not. *)
Theorem HandlerDeregister_commute s M p M' q :
  HandlerDeregister s M p ≫= (fun s1 => HandlerDeregister s1 M' q)
  = HandlerDeregister s M' q ≫= (fun s1 => HandlerDeregister s1 M p).
Proof.
  rewrite !HandlerDeregister_alter. cbn [mbind option_bind].
  rewrite !HandlerDeregister_alter. f_equal. apply map_eq. intros K.
  rewrite !lookup_alter.
  repeat case_decide; simplify_eq; try done.
  destruct (s !! _) as [l |]; simpl; [| done].
  by rewrite filter_kept_comm.
Qed.

Lemma bindings_Handle_times n s M p f :
  bindings (Handle_times n s M p f) M
  = replicate n {| pat := p; h := f |} ++ bindings s M.
Proof.
  induction n as [| n IH]; [done |].
  cbn [Handle_times replicate app]. unfold Handle at 1.
  by rewrite bindings_insert, IH.
Qed.

Lemma filter_kept_replicate n p (f : HandlerFunc) :
  filter (kept (pat_String p)) (replicate n {| pat := p; h := f |}) = [].
Proof.
  induction n as [| n IH]; [done |]. cbn [replicate].
  by rewrite filter_cons_False by (unfold kept; cbn; tauto).
Qed.

(** Property X6. Registrations pile up: [n] calls of [Handle] for the
    same method and pattern leave [n] bindings in front of those of
    before, and no call removes any. One [HandlerDeregister] of the
    pattern removes them all, together with the older bindings that have
    the pattern string. *)
Theorem Handle_repeated_then_HandlerDeregister n s M p f :
  bindings (Handle_times n s M p f) M
    = replicate n {| pat := p; h := f |} ++ bindings s M /\
  exists s',
    HandlerDeregister (Handle_times n s M p f) M p = Some s' /\
    bindings s' M = filter (kept (pat_String p)) (bindings s M).
Proof.
  split; [apply bindings_Handle_times |].
  destruct (HandlerDeregister_filter (Handle_times n s M p f) M p)
    as (s' & Hrun & Hb & _).
  exists s'. split; [done |]. rewrite Hb, bindings_Handle_times, filter_app.
  by rewrite filter_kept_replicate.
Qed.

(** Property X7. The variant of [Handle] replaces: it always returns;
    under the method it leaves the bindings of before without those that
    had the pattern string, in the same order, and the new binding after
    them; the entries of the other methods are the same. *)
Theorem Variant_Handle_exact s M p f :
  exists s',
    Variant.Handle s M p f = Some s' /\
    bindings s' M
    = filter (kept (pat_String p)) (bindings s M) ++ [ {| pat := p; h := f |} ] /\
    (forall M', M' ≠ M -> s' !! M' = s !! M').
Proof. apply Variant_Handle_replaces. Qed.

Lemma Variant_HandlerDeregister_eq s M p :
  Variant.HandlerDeregister s M p = HandlerDeregister s M p.
Proof.
  unfold Variant.HandlerDeregister, HandlerDeregister.
  destruct (length (bindings s M) =? 0)%nat; [done |].
  rewrite remove_loop_eq.
  destruct (deregister_loop _ _ _ _ _ _) as [[offset nh] |]; [| done].
  cbn [mbind option_bind].
  by destruct (slice (bindings s M) offset (length (bindings s M))).
Qed.

Lemma Variant_run_ops_no_duplicates (ops : list (Op HandlerFunc)) :
  forall s,
    no_duplicates s ->
    exists s', Variant_run_ops s ops = Some s' /\ no_duplicates s'.
Proof.
  induction ops as [| o ops IH]; intros s Hs; [by exists s |].
  cbn [Variant_run_ops]. destruct o as [M p f | M p]; cbn [Variant_apply_op].
  - destruct (Variant_Handle_replaces s M p f) as (s1 & Hs1 & _).
    rewrite Hs1. cbn [mbind option_bind]. apply IH.
    by eapply Variant_Handle_no_duplicates.
  - rewrite Variant_HandlerDeregister_eq.
    destruct (HandlerDeregister_filter s M p) as (s1 & Hs1 & _).
    rewrite Hs1. cbn [mbind option_bind]. apply IH.
    by eapply HandlerDeregister_no_duplicates.
Qed.

(** Property X8. With the variant of [Handle] the table never has two
    bindings of a method with the same pattern string: from the empty
    table, every sequence of calls of the variant's [Handle] and
    [HandlerDeregister] returns, and leaves every method with at most one
    binding for any pattern string. *)
Theorem Variant_no_duplicates (ops : list (Op HandlerFunc)) :
  exists s',
    Variant_run_ops ∅ ops = Some s' /\
    forall M, NoDup (pattern_strings (bindings s' M)).
Proof.
  apply Variant_run_ops_no_duplicates.
  intros M. unfold bindings. rewrite lookup_empty. constructor.
Qed.

Lemma filter_kept_idemp patS l :
  filter (kept patS) (filter (kept patS) l) = filter (kept patS) l.
Proof. apply filter_all, filter_kept_Forall. Qed.

(** Property X9. With the variant, registering again replaces the
    handler and nothing else: two calls of [Handle] for the same method
    and pattern leave the table that the second call alone would have
    left. *)
Theorem Variant_Handle_twice s M p f1 f2 :
  Variant.Handle s M p f1 ≫= (fun s1 => Variant.Handle s1 M p f2)
  = Variant.Handle s M p f2.
Proof.
  destruct (Variant_Handle_replaces s M p f1) as (s1 & Hs1 & Hb1 & Ho1).
  destruct (Variant_Handle_replaces s M p f2) as (s2 & Hs2 & Hb2 & Ho2).
  destruct (Variant_Handle_replaces s1 M p f2) as (s12 & Hs12 & Hb12 & Ho12).
  rewrite Hs1, Hs2. cbn [mbind option_bind]. rewrite Hs12. f_equal.
  apply map_eq. intros K. destruct (decide (K = M)) as [-> | HK].
  - assert (bindings s12 M = bindings s2 M) as Hb.
    { rewrite Hb12, Hb2, Hb1, filter_app, filter_kept_idemp.
      rewrite (filter_cons_False (kept (pat_String p))) by (unfold kept; cbn; tauto).
      by rewrite filter_nil, app_nil_r. }
    assert (forall t : gmap string (list (handler HandlerFunc)),
              bindings t M ≠ [] -> t !! M = Some (bindings t M)) as Hsome.
    { intros t. unfold bindings. by destruct (t !! M). }
    assert (forall l b, l ++ [b] ≠ @nil (handler HandlerFunc)) as Hne
      by (intros l b; by destruct l).
    rewrite (Hsome s12), (Hsome s2), Hb; [done | |];
      rewrite ?Hb12, ?Hb2; apply Hne.
  - by rewrite (Ho12 K HK), (Ho1 K HK), (Ho2 K HK).
Qed.

End TableMore.

(** One case of the test passes when [count] is the number of bindings
    that have the pattern string. *)
Lemma deregister_case_passes (handlers : list (handler unit)) table meth p count :
  bindings table meth = handlers ->
  count = Z.of_nat (length (filter (fun b => pat_String (pat b) = pat_String p)
                              handlers)) ->
  deregister_case handlers table meth p count = Some true.
Proof.
  intros Hb ->. unfold deregister_case.
  destruct (HandlerDeregister_filter table meth p) as (s' & Hrun & Hb' & _).
  rewrite Hrun. cbn [mbind option_bind]. f_equal. apply andb_true_iff. split.
  - apply forallb_forall. intros b Hin. apply negb_true_iff.
    unfold streq. apply bool_decide_eq_false.
    rewrite Hb' in Hin. apply list_elem_of_In, list_elem_of_filter in Hin.
    by destruct Hin.
  - apply Z.eqb_eq. rewrite Hb', Hb.
    pose proof (filter_split_length (pat_String p) handlers). lia.
Qed.

(** Property X1. The test of the repository passes: when the pattern
    strings of [h1], [h2], [h3], [h5] and [h6] are all different, each of
    the four cases of [TestServeMuxMutex_Deregister] finds no binding left
    with the pattern string and the count that it expects (one for the
    first and for the last binding, two for the pattern that is bound
    twice, none for the pattern that is not bound). *)
Theorem TestServeMuxMutex_Deregister_passes h1 h2 h3 h5 h6 :
  NoDup (pat_String <$> [h1; h2; h3; h5; h6]) ->
  TestServeMuxMutex_Deregister h1 h2 h3 h5 h6
  = [Some true; Some true; Some true; Some true].
Proof.
  intros Hnd. cbn [fmap list_fmap] in Hnd.
  repeat (apply NoDup_cons in Hnd as [?%not_elem_of_cons Hnd]).
  repeat match goal with
         | H : _ ∧ _ |- _ => destruct H
         | H : _ ∉ _ :: _ |- _ => apply not_elem_of_cons in H
         end.
  unfold TestServeMuxMutex_Deregister.
  assert (forall hs : list (handler unit),
            bindings ({[ "GET" := hs ]} : gmap string (list (handler unit))) "GET"
            = hs) as Hb
    by (intros hs; unfold bindings; by rewrite lookup_singleton_eq).
  repeat f_equal; (apply deregister_case_passes; [apply Hb |]);
    repeat (first
      [ rewrite filter_cons_True by (cbn; congruence)
      | rewrite filter_cons_False by (cbn; congruence) ]);
    reflexivity.
Qed.

(** ** More on the dispatch *)

Lemma substring_cut s n :
  (n <= String.length s)%nat ->
  s = substring 0 n s +:+ substring n (String.length s - n) s.
Proof.
  revert n. induction s as [| a s IH]; intros [| n] Hn; simpl in *; try lia.
  - done.
  - by rewrite substring_all.
  - change (String a s
            = String a (substring 0 n s +:+ substring n (String.length s - n) s)).
    f_equal. apply IH. lia.
Qed.

Lemma length_append a b :
  String.length (a +:+ b) = (String.length a + String.length b)%nat.
Proof. induction a as [| x a IH]; simpl; [done | by rewrite IH]. Qed.

Lemma HasSuffix_cut s suffix :
  HasSuffix s suffix = true ->
  s = str_to s (String.length s - String.length suffix) +:+ suffix /\
  str_from s (String.length s - String.length suffix) = suffix.
Proof.
  unfold HasSuffix, str_to, str_from. intros [Hlen Heq]%andb_true_iff.
  apply Nat.leb_le in Hlen. apply String.eqb_eq in Heq.
  pose proof (substring_cut s (String.length s - String.length suffix)) as Hcut.
  replace (String.length s - (String.length s - String.length suffix))%nat
    with (String.length suffix) in * by lia.
  rewrite Heq in Hcut. split; [apply Hcut; lia | done].
Qed.

Lemma append_assoc (x y z : string) : x +:+ y +:+ z = (x +:+ y) +:+ z.
Proof.
  induction x as [| a x IH]; [done |].
  change (String a (x +:+ y +:+ z) = String a ((x +:+ y) +:+ z)).
  by rewrite IH.
Qed.

Lemma str_from_S a s n : str_from (String a s) (S n) = str_from s n.
Proof. reflexivity. Qed.

Lemma str_from_append a b : str_from (a +:+ b) (String.length a) = b.
Proof.
  induction a as [| x a IH].
  - change (str_from b 0 = b). unfold str_from. rewrite Nat.sub_0_r.
    destruct b; [done |]. apply substring_all.
  - change (str_from (String x (a +:+ b)) (S (String.length a)) = b).
    by rewrite str_from_S.
Qed.

Section DispatchMore.

Context {HandlerFunc ReqRest : Type}.
Variable ParseForm : Request ReqRest -> ReqRest * option string.
Variable isPathLengthFallback : Request ReqRest -> bool.
Variable ToUpper : string -> string.

Implicit Types (s : gmap string (list (handler HandlerFunc))).
Implicit Types (hs : list (handler HandlerFunc)).
Implicit Types (b : handler HandlerFunc).
Implicit Types (r : Request ReqRest) (c components : list string).
Implicit Types (order : list (string * list (handler HandlerFunc))).

Local Abbreviation override :=
  (method_override (HandlerFunc := HandlerFunc)
     ParseForm isPathLengthFallback ToUpper).
Local Abbreviation serve := (ServeHTTP_in ParseForm isPathLengthFallback ToUpper).
Local Abbreviation look := (lookup ParseForm isPathLengthFallback).
Local Abbreviation fb_handlers := (fallback_handlers ParseForm isPathLengthFallback).
Local Abbreviation found := (fallback_found ParseForm isPathLengthFallback).
Local Abbreviation fb_loop := (fallback_loop ParseForm isPathLengthFallback).
Local Abbreviation by_fallback := (by_fallback ParseForm isPathLengthFallback).

(** *** The verb of a candidate *)

(** Property X10. The assignment of line 99 splits the last component at
    the colon before the verb of the pattern and loses nothing: when the
    last component [x] ends with a colon and the verb and is longer than
    them, what is left of it is not empty, [x] is what is left, a colon
    and the verb, the verb given to [Match] is the verb of the pattern,
    and the components before the last one are unchanged. *)
Theorem strip_verb_round_trip patVerb c v x :
  last c = Some x ->
  patVerb ≠ "" ->
  HasSuffix x (":" +:+ patVerb) = true ->
  x ≠ ":" +:+ patVerb ->
  exists y,
    y ≠ "" /\
    x = y +:+ ":" +:+ patVerb /\
    strip_verb patVerb c v x = (take (length c - 1) c ++ [y], patVerb).
Proof.
  intros Hl Hv Hs Hx.
  destruct (HasSuffix_cut _ _ Hs) as [Hcut _].
  rewrite length_colon_append in Hcut.
  remember (str_to x (String.length x - S (String.length patVerb))) as y
    eqn:Hy0.
  assert (String.length x
          = (String.length y + S (String.length patVerb))%nat) as Hlen.
  { rewrite Hcut at 1. by rewrite length_append, length_colon_append. }
  assert (y ≠ "") as Hy.
  { intros Hy. rewrite Hy in Hcut. by simpl in Hcut. }
  assert (0 < String.length y)%nat as Hpos by (destruct y; [done | simpl; lia]).
  assert (verb_index patVerb x = Z.of_nat (String.length y)) as Hidx.
  { unfold verb_index, streq. rewrite bool_decide_eq_false_2 by done.
    rewrite Hs. cbn [negb andb]. unfold len. lia. }
  exists y. split; [done |]. split; [done |].
  unfold strip_verb. rewrite Hidx.
  replace (0 <? Z.of_nat (String.length y))%Z with true
    by (symmetry; apply Z.ltb_lt; lia).
  rewrite Nat2Z.id.
  replace (Z.to_nat (Z.of_nat (String.length y) + 1))
    with (String.length (y +:+ ":")) by (rewrite length_append; simpl; lia).
  f_equal.
  - assert (str_to x (String.length y) = y) as ->.
    { rewrite Hy0 at 2. f_equal. lia. }
    apply last_lookup_pred in Hl.
    assert (length c - 1 < length c)%nat as Hlt by (by eapply lookup_lt_Some).
    rewrite insert_take_drop by done.
    replace (S (length c - 1)) with (length c) by lia.
    by rewrite drop_all.
  - rewrite Hcut at 1.
    rewrite append_assoc. apply str_from_append.
Qed.

(** *** Which patterns are consulted and which handlers are invoked *)

Lemma primary_loop_registered r hs :
  forall c v tr res,
    primary_loop r hs c v = (tr, res) ->
    (forall p c' v', EvMatch p c' v' ∈ tr -> exists b, b ∈ hs /\ pat b = p) /\
    (forall f r' params, res = inl (Invoked f r' params) ->
       r' = r /\
       exists b c' v', b ∈ hs /\ h b = f /\
                       pat_Match (pat b) c' v' = Some params /\
                       EvMatch (pat b) c' v' ∈ tr).
Proof.
  induction hs as [| b hs IH]; intros c v tr res; cbn [primary_loop].
  { intros [= <- <-]. split; [| done]. intros p c' v' Hin. inversion Hin. }
  destruct (c !! (length c - 1)%nat) as [x |].
  2: { intros [= <- <-]. split; [| done]. intros p c' v' Hin. inversion Hin. }
  destruct (verb_index (pat_Verb (pat b)) x =? 0)%Z.
  { intros [= <- <-]. split; [| done].
    intros p c' v' Hin. by apply list_elem_of_singleton in Hin. }
  destruct (strip_verb (pat_Verb (pat b)) c v x) as [c1 v1].
  destruct (pat_Match (pat b) c1 v1) as [params |] eqn:Hm.
  { intros [= <- <-]. split.
    - intros p c' v' [[= -> -> ->] | Hin]%elem_of_cons.
      + exists b. split; [left | done].
      + by apply list_elem_of_singleton in Hin.
    - intros f r' params' [= <- <- <-]. split; [done |].
      exists b, c1, v1. split; [left |]. do 2 (split; [done |]). left. }
  destruct (primary_loop r hs c1 v1) as [tr' res'] eqn:Hrun.
  intros [= <- <-]. destruct (IH _ _ _ _ Hrun) as [Hev Hinv]. split.
  - intros p c' v' [[= -> -> ->] | Hin]%elem_of_cons.
    + exists b. split; [left | done].
    + destruct (Hev _ _ _ Hin) as (b' & Hb' & Hp). exists b'. split; [by right | done].
  - intros f r' params Hres. destruct (Hinv _ _ _ Hres) as (-> & b' & c' & v' & Hb' & Hf & Hm' & Hin).
    split; [done |]. exists b', c', v'. split; [by right |].
    do 2 (split; [done |]). by right.
Qed.

Lemma found_invoked r b params f r' params' :
  snd (found r b params) = Invoked f r' params' ->
  f = h b /\ params' = params /\ by_fallback r r'.
Proof.
  unfold fallback_found, by_fallback.
  destruct (isPathLengthFallback r); [| done].
  destruct (ParseForm r) as [rest [err |]]; [done |]. cbn [snd].
  intros [= <- <- <-]. do 3 (split; [done |]). by exists rest.
Qed.

Lemma fallback_handlers_registered r hs c v :
  forall tr res,
    fb_handlers r hs c v = (tr, res) ->
    (forall p c' v', EvMatch p c' v' ∈ tr -> exists b, b ∈ hs /\ pat b = p) /\
    (forall f r' params, res = Some (Invoked f r' params) ->
       by_fallback r r' /\
       exists b, b ∈ hs /\ h b = f /\
                 pat_Match (pat b) c v = Some params /\
                 EvMatch (pat b) c v ∈ tr).
Proof.
  induction hs as [| b hs IH]; intros tr res; cbn [fallback_handlers].
  { intros [= <- <-]. split; [| done]. intros p c' v' Hin. inversion Hin. }
  destruct (pat_Match (pat b) c v) as [params |] eqn:Hm.
  - pose proof (found_invoked r b params) as Hf.
    pose proof (found_events ParseForm isPathLengthFallback r b params) as Hne.
    destruct (found r b params) as [tr' out]. cbn [fst snd] in *.
    intros [= <- <-]. split.
    + intros p c' v' [[= -> -> ->] | Hin]%elem_of_cons.
      * exists b. split; [left | done].
      * by apply Hne in Hin.
    + intros f r' params' [= ->].
      destruct (Hf _ _ _ eq_refl) as (-> & -> & Hby). split; [done |].
      exists b. split; [left |]. do 2 (split; [done |]). left.
  - destruct (fb_handlers r hs c v) as [tr' res'] eqn:Hrun.
    intros [= <- <-]. destruct (IH _ _ eq_refl) as [Hev Hinv]. split.
    + intros p c' v' [[= -> -> ->] | Hin]%elem_of_cons.
      * exists b. split; [left | done].
      * destruct (Hev _ _ _ Hin) as (b' & Hb' & Hp).
        exists b'. split; [by right | done].
    + intros f r' params Hres.
      destruct (Hinv _ _ _ Hres) as (Hby & b' & Hb' & Hf & Hm' & Hin).
      split; [done |]. exists b'. split; [by right |].
      do 2 (split; [done |]). by right.
Qed.

Lemma fallback_loop_registered r order c v :
  forall tr res,
    fb_loop r order c v = (tr, res) ->
    (forall p c' v', EvMatch p c' v' ∈ tr ->
       exists m hs b, (m, hs) ∈ order /\ m ≠ Method r /\ b ∈ hs /\ pat b = p) /\
    (forall f r' params, res = Some (Invoked f r' params) ->
       by_fallback r r' /\
       exists m hs b, (m, hs) ∈ order /\ m ≠ Method r /\ b ∈ hs /\ h b = f /\
                      pat_Match (pat b) c v = Some params /\
                      EvMatch (pat b) c v ∈ tr).
Proof.
  induction order as [| [m hs] order IH]; intros tr res; cbn [fallback_loop].
  { intros [= <- <-]. split; [| done]. intros p c' v' Hin. inversion Hin. }
  unfold streq. case_bool_decide as Hm.
  { intros Hrun. destruct (IH _ _ Hrun) as [Hev Hinv]. split.
    - intros p c' v' Hin.
      destruct (Hev _ _ _ Hin) as (m' & hs' & b & Ho & Hne & Hb & Hp).
      exists m', hs', b. split; [by right | done].
    - intros f r' params Hres.
      destruct (Hinv _ _ _ Hres) as (Hby & m' & hs' & b & Ho & Hrest).
      split; [done |]. exists m', hs', b. split; [by right | done]. }
  destruct (fb_handlers r hs c v) as [tr1 res1] eqn:Hrun1.
  destruct (fallback_handlers_registered _ _ _ _ _ _ Hrun1) as [Hev1 Hinv1].
  destruct res1 as [out |].
  - intros [= <- <-]. split.
    + intros p c' v' Hin. destruct (Hev1 _ _ _ Hin) as (b & Hb & Hp).
      exists m, hs, b. split; [left | done].
    + intros f r' params [= ->].
      destruct (Hinv1 _ _ _ eq_refl) as (Hby & b & Hb & Hrest).
      split; [done |]. exists m, hs, b. split; [left | done].
  - destruct (fb_loop r order c v) as [tr2 res2] eqn:Hrun2.
    intros [= <- <-]. destruct (IH _ _ eq_refl) as [Hev Hinv]. split.
    + intros p c' v' [Hin | Hin]%elem_of_app.
      * destruct (Hev1 _ _ _ Hin) as (b & Hb & Hp).
        exists m, hs, b. split; [left | done].
      * destruct (Hev _ _ _ Hin) as (m' & hs' & b & Ho & Hrest).
        exists m', hs', b. split; [by right | done].
    + intros f r' params Hres.
      destruct (Hinv _ _ _ Hres) as (Hby & m' & hs' & b & Ho & Hne & Hb & Hf & Hmm & Hin).
      split; [done |]. exists m', hs', b. split; [by right |].
      do 4 (split; [done |]). apply elem_of_app. by right.
Qed.

(** The lookup: the patterns that it consults are bound in the table,
    and so is the handler that it invokes, under the method of the
    request or, by the fallback, under another one. *)
Lemma lookup_registered order s r c tr out :
  order ≡ₚ map_to_list s ->
  look order s r c = (tr, out) ->
  (forall p c' v', EvMatch p c' v' ∈ tr ->
     exists M b, b ∈ bindings s M /\ pat b = p) /\
  (forall f r' params, out = Invoked f r' params ->
     exists M b c' v',
       b ∈ bindings s M /\ h b = f /\
       pat_Match (pat b) c' v' = Some params /\
       EvMatch (pat b) c' v' ∈ tr /\
       ((M = Method r /\ r' = r) \/ (M ≠ Method r /\ by_fallback r r'))).
Proof.
  intros Hperm. unfold lookup.
  destruct (primary_loop r (bindings s (Method r)) c "") as [tr1 res1] eqn:Hrun1.
  destruct (primary_loop_registered _ _ _ _ _ _ Hrun1) as [Hev1 Hinv1].
  destruct res1 as [out1 | [c1 v1]].
  { intros [= <- <-]. split.
    - intros p c' v' [[=] | Hin]%elem_of_cons.
      destruct (Hev1 _ _ _ Hin) as (b & Hb & Hp). by exists (Method r), b.
    - intros f r' params ->.
      destruct (Hinv1 _ _ _ eq_refl) as (-> & b & c' & v' & Hb & Hf & Hm & Hin).
      exists (Method r), b, c', v'. do 3 (split; [done |]).
      split; [by right | by left]. }
  destruct (fb_loop r order c1 v1) as [tr2 res2] eqn:Hrun2.
  destruct (fallback_loop_registered _ _ _ _ _ _ Hrun2) as [Hev2 Hinv2].
  assert (forall p c' v', EvMatch p c' v' ∈ tr1 ++ tr2 ->
            exists M b, b ∈ bindings s M /\ pat b = p) as Hev.
  { intros p c' v' [Hin | Hin]%elem_of_app.
    - destruct (Hev1 _ _ _ Hin) as (b & Hb & Hp). by exists (Method r), b.
    - destruct (Hev2 _ _ _ Hin) as (m & hs & b & Ho & _ & Hb & Hp).
      exists m, b. by rewrite (order_entry _ _ _ _ Hperm Ho). }
  destruct res2 as [out2 |].
  - intros [= <- <-]. split.
    + intros p c' v' [[=] | Hin]%elem_of_cons. by eapply Hev.
    + intros f r' params ->.
      destruct (Hinv2 _ _ _ eq_refl) as (Hby & m & hs & b & Ho & Hne & Hb & Hf & Hm & Hin).
      exists m, b, c1, v1. rewrite (order_entry _ _ _ _ Hperm Ho).
      do 3 (split; [done |]). split; [| by right].
      right. apply elem_of_app. by right.
  - intros [= <- <-]. split; [| done].
    intros p c' v' [[=] | Hin]%elem_of_cons.
    rewrite app_assoc in Hin. apply elem_of_app in Hin as [Hin | Hin].
    + by eapply Hev.
    + by apply list_elem_of_singleton in Hin.
Qed.

Lemma serve_registered order s r tr out :
  order ≡ₚ map_to_list s ->
  serve order s r = (tr, out) ->
  (forall p c' v', EvMatch p c' v' ∈ tr ->
     exists M b, b ∈ bindings s M /\ pat b = p) /\
  (forall f r' params, out = Invoked f r' params ->
     exists M b c' v',
       b ∈ bindings s M /\ h b = f /\
       pat_Match (pat b) c' v' = Some params /\
       EvMatch (pat b) c' v' ∈ tr /\
       (M = Method r' \/
        exists r0, Method r0 = Method r' /\ M ≠ Method r0 /\ by_fallback r0 r')).
Proof.
  intros Hperm. unfold ServeHTTP_in.
  destruct (negb (HasPrefix (URL_Path r) "/")).
  { intros [= <- <-]. split; [| done]. intros p c' v' Hin. inversion Hin. }
  destruct (override r) as [[tr0 out0] | [tr0 r1]] eqn:Ho.
  { unfold method_override in Ho.
    destruct (negb _ && _); [| done].
    destruct (ParseForm _) as [rest [err |]]; [| done].
    injection Ho as <- <-. intros [= <- <-]. split; [| done].
    intros p c' v' Hin. by apply list_elem_of_singleton in Hin. }
  assert (forall p c' v', EvMatch p c' v' ∉ tr0) as Htr0.
  { unfold method_override in Ho.
    destruct (negb _ && _).
    - destruct (ParseForm _) as [rest [err |]]; [done |].
      injection Ho as <- <-. intros p c' v' Hin.
      by apply list_elem_of_singleton in Hin.
    - injection Ho as <- <-. intros p c' v' Hin. inversion Hin. }
  destruct (look order s r1 _) as [tr1 out1] eqn:Hlook.
  destruct (lookup_registered _ _ _ _ _ _ Hperm Hlook) as [Hev Hinv].
  intros [= <- <-]. split.
  - intros p c' v' [Hin | Hin]%elem_of_app; [by apply Htr0 in Hin | by eapply Hev].
  - intros f r' params ->.
    destruct (Hinv _ _ _ eq_refl) as (M & b & c' & v' & Hb & Hf & Hm & Hin & Hcase).
    exists M, b, c', v'. do 3 (split; [done |]).
    split; [apply elem_of_app; by right |].
    destruct Hcase as [[-> ->] | [Hne Hby]]; [by left |].
    right. exists r1. split; [| done].
    destruct Hby as (_ & rest & _ & ->). done.
Qed.

(** Property X11. A handler that [ServeHTTP] invokes is the handler of a
    binding of the table, invoked with the parameters that [Match] of
    its pattern returned in a call of this dispatch. The binding is bound
    under the method of the request as the handler sees it, or under
    another method, and then the path length fallback applied and the
    form was parsed without error. *)
Theorem invoked_handler_is_registered order s r tr f r' params :
  order ≡ₚ map_to_list s ->
  serve order s r = (tr, Invoked f r' params) ->
  exists M b c v,
    b ∈ bindings s M /\ h b = f /\
    pat_Match (pat b) c v = Some params /\
    EvMatch (pat b) c v ∈ tr /\
    (M = Method r' \/
     exists r0, Method r0 = Method r' /\ M ≠ Method r0 /\
                isPathLengthFallback r0 = true /\
                exists rest, ParseForm r0 = (rest, None) /\ r' = set_Rest r0 rest).
Proof.
  intros Hperm Hrun.
  destruct (serve_registered _ _ _ _ _ Hperm Hrun) as [_ Hinv].
  apply (Hinv _ _ _ eq_refl).
Qed.

(** Property X12. After [HandlerDeregister s M p] the dispatch consults
    only patterns of bindings that the table had before, and none that
    was bound under [M] with the pattern string of [p]; the handler that
    it invokes, if any, is the handler of such a binding. *)
Theorem deregistered_binding_not_served s M p s' order r :
  HandlerDeregister s M p = Some s' ->
  order ≡ₚ map_to_list s' ->
  (forall q c v, EvMatch q c v ∈ fst (serve order s' r) ->
     exists M' b, b ∈ bindings s M' /\ pat b = q /\
                  (M' = M -> pat_String q ≠ pat_String p)) /\
  (forall f r' params, snd (serve order s' r) = Invoked f r' params ->
     exists M' b, b ∈ bindings s M' /\ h b = f /\
                  (M' = M -> pat_String (pat b) ≠ pat_String p)).
Proof.
  intros Hd Hperm.
  destruct (HandlerDeregister_filter s M p) as (s1 & Hd1 & HbM & Hother & _).
  rewrite Hd in Hd1. injection Hd1 as <-.
  assert (forall M' b, b ∈ bindings s' M' ->
            b ∈ bindings s M' /\ (M' = M -> pat_String (pat b) ≠ pat_String p))
    as Hold.
  { intros M' b Hb. destruct (decide (M' = M)) as [-> | Hne].
    - rewrite HbM in Hb. apply list_elem_of_filter in Hb as [Hk Hb]. done.
    - unfold bindings in *. rewrite <- (Hother M' Hne). done. }
  destruct (serve order s' r) as [tr out] eqn:Hrun.
  destruct (serve_registered _ _ _ _ _ Hperm Hrun) as [Hev Hinv].
  cbn [fst snd]. split.
  - intros q c v Hin. destruct (Hev _ _ _ Hin) as (M' & b & Hb & <-).
    destruct (Hold _ _ Hb) as [Hb' Hk]. by exists M', b.
  - intros f r' params ->.
    destruct (Hinv _ _ _ eq_refl) as (M' & b & _ & _ & Hb & Hf & _).
    destruct (Hold _ _ Hb) as [Hb' Hk]. by exists M', b.
Qed.

(** *** The lock *)

(** Property X13. [ServeHTTP] never indexes out of range, and it leaves
    the lock as it found it on every path: either no lock is taken (the
    path has no leading slash, or the form of the method override does not
    parse) and no handler is invoked, or the read lock is taken once,
    [Match] is called only while it is held, and it is released once,
    before the form is parsed for the fallback and before a handler or an
    error handler is called. *)
Theorem ServeHTTP_lock_discipline order s r :
  snd (serve order s r) ≠ Panic /\
  ((Forall is_parse (fst (serve order s r)) /\
    forall f r' params, snd (serve order s r) ≠ Invoked f r' params) \/
   exists tr0 pre post,
     fst (serve order s r) = tr0 ++ EvRLock :: pre ++ EvRUnlock :: post /\
     Forall is_parse tr0 /\ Forall is_match pre /\ Forall is_parse post).
Proof.
  unfold ServeHTTP_in.
  destruct (negb (HasPrefix (URL_Path r) "/")).
  { cbn [fst snd]. split; [done |]. left. split; [constructor | done]. }
  destruct (override r) as [[tr0 out0] | [tr0 r1]] eqn:Ho.
  { unfold method_override in Ho.
    destruct (negb _ && _); [| done].
    destruct (ParseForm _) as [rest [err |]]; [| done].
    injection Ho as <- <-. cbn [fst snd]. split; [done |]. left.
    split; [| done]. repeat constructor. by eexists. }
  assert (Forall is_parse tr0) as Htr0.
  { unfold method_override in Ho.
    destruct (negb _ && _).
    - destruct (ParseForm _) as [rest [err |]]; [done |].
      injection Ho as <- <-. repeat constructor. by eexists.
    - injection Ho as <- <-. constructor. }
  destruct (lookup_shape ParseForm isPathLengthFallback order s r1
              (Split (str_from (URL_Path r) 1) "/") (Split_not_nil _ _))
    as (Hout & pre & post & Htr & Hpre & Hpost).
  destruct (look order s r1 _) as [tr1 out1]. cbn [fst snd] in *.
  split; [done |]. right. exists tr0, pre, post. by rewrite Htr.
Qed.

(** *** The order of iteration of the map *)

Lemma fallback_loop_order r order1 order2 c v :
  order1 ≡ₚ order2 ->
  match snd (fb_loop r order1 c v), snd (fb_loop r order2 c v) with
  | None, None => True
  | Some out1, Some out2 =>
      out1 = out2 \/
      exists f1 f2 r' params1 params2,
        out1 = Invoked f1 r' params1 /\ out2 = Invoked f2 r' params2
  | _, _ => False
  end.
Proof.
  intros Hperm.
  assert (forall b1 b2 params1 params2,
            snd (found r b1 params1) = snd (found r b2 params2) \/
            exists f1 f2 r' p1 p2,
              snd (found r b1 params1) = Invoked f1 r' p1 /\
              snd (found r b2 params2) = Invoked f2 r' p2) as Hfound.
  { intros b1 b2 params1 params2. unfold fallback_found.
    destruct (isPathLengthFallback r); [| by left].
    destruct (ParseForm r) as [rest [err |]]; [by left |].
    right. by eexists _, _, _, _, _. }
  destruct (fallback_loop_cases ParseForm isPathLengthFallback r order1 c v)
    as [(tr1 & Hrun1 & Hnone1)
       | (o1 & m1 & pre1 & b1 & post1 & o1' & params1 & tr1 & Ho1 & Hne1 & _ & _ & Hm1 & Hrun1)];
  destruct (fallback_loop_cases ParseForm isPathLengthFallback r order2 c v)
    as [(tr2 & Hrun2 & Hnone2)
       | (o2 & m2 & pre2 & b2 & post2 & o2' & params2 & tr2 & Ho2 & Hne2 & _ & _ & Hm2 & Hrun2)];
    rewrite Hrun1, Hrun2; cbn [snd].
  - done.
  - rewrite (Hnone1 m2 (pre2 ++ b2 :: post2) b2) in Hm2; [done | | done |].
    + rewrite Hperm, Ho2. apply elem_of_app. right. left.
    + apply elem_of_app. right. left.
  - rewrite (Hnone2 m1 (pre1 ++ b1 :: post1) b1) in Hm1; [done | | done |].
    + rewrite <- Hperm, Ho1. apply elem_of_app. right. left.
    + apply elem_of_app. right. left.
  - apply Hfound.
Qed.

(** Property X14. Go leaves the order of iteration of the map open, and
    the dispatch depends on it in one way only: two runs of [ServeHTTP]
    on the same table and request end in the same way, unless both invoke
    a handler, with the same request, and then the handlers (of bindings
    of other methods that match, reached by the fallback) may differ. *)
Theorem iteration_order_only_picks_handler s r res1 res2 :
  ServeHTTP ParseForm isPathLengthFallback ToUpper s r res1 ->
  ServeHTTP ParseForm isPathLengthFallback ToUpper s r res2 ->
  snd res1 = snd res2 \/
  exists f1 f2 r' params1 params2,
    snd res1 = Invoked f1 r' params1 /\ snd res2 = Invoked f2 r' params2.
Proof.
  intros (order1 & Hp1 & <-) (order2 & Hp2 & <-).
  assert (order1 ≡ₚ order2) as Hperm by (by rewrite Hp1, Hp2).
  unfold ServeHTTP_in.
  destruct (negb (HasPrefix (URL_Path r) "/")); [by left |].
  destruct (override r) as [[tr0 out0] | [tr0 r1]]; [by left |].
  unfold lookup.
  destruct (primary_loop r1 _ _ "") as [tr1 [out1 | [c1 v1]]]; [by left |].
  pose proof (fallback_loop_order r1 order1 order2 c1 v1 Hperm) as Hfb.
  destruct (fb_loop r1 order1 c1 v1) as [tra [outa |]];
    destruct (fb_loop r1 order2 c1 v1) as [trb [outb |]];
    cbn [snd] in *; try done.
  by left.
Qed.

(** *** Paths without a verb *)

(** Property X15. When no binding of the method of the request has a
    verb that the last component of the path ends with (after a colon),
    nothing is stripped: every call of [Match] of the dispatch, in the
    loop over the bindings of the method and in the fallback, is given
    the components of the path as [strings.Split] returns them and the
    empty verb. *)
Theorem no_verb_suffix_no_stripping order s r x :
  let components := Split (str_from (URL_Path r) 1) "/" in
  let M :=
    if negb (streq (Header_MethodOverride r) "") && isPathLengthFallback r
    then ToUpper (Header_MethodOverride r) else Method r in
  last components = Some x ->
  (forall b, b ∈ bindings s M ->
     pat_Verb (pat b) = "" \/
     HasSuffix x (":" +:+ pat_Verb (pat b)) = false) ->
  forall p c v,
    EvMatch p c v ∈ fst (serve order s r) -> c = components /\ v = "".
Proof.
  intros components M Hl Hno p c v. unfold ServeHTTP_in. fold components.
  destruct (negb (HasPrefix (URL_Path r) "/")).
  { intros Hin. inversion Hin. }
  unfold method_override. fold M.
  assert (forall b, b ∈ bindings s M ->
            verb_index (pat_Verb (pat b)) x = (-1)%Z) as Hidx.
  { intros b Hb. unfold verb_index, streq.
    destruct (Hno b Hb) as [-> | ->]; [done |]. by rewrite andb_false_r. }
  assert (forall r1, Method r1 = M ->
            forall tr out, look order s r1 components = (tr, out) ->
            EvMatch p c v ∈ tr -> c = components /\ v = "") as Hlook.
  { intros r1 HM tr out. unfold lookup. rewrite HM.
    destruct (primary_loop r1 (bindings s M) components "") as [tr1 res1] eqn:Hrun1.
    destruct (primary_loop_stable _ _ _ _ _ _ _ Hl Hidx Hrun1) as [Hev1 Hfin1].
    destruct res1 as [out1 | [c1 v1]].
    { intros [= <- <-] [[=] | Hin]%elem_of_cons. by eapply Hev1. }
    destruct (Hfin1 _ _ eq_refl) as [-> ->].
    destruct (fb_loop r1 order components "") as [tr2 res2] eqn:Hrun2.
    pose proof (fallback_loop_events ParseForm isPathLengthFallback
                  _ _ _ _ _ _ Hrun2) as Hev2.
    destruct res2 as [out2 |]; intros [= <- <-] [[=] | Hin]%elem_of_cons.
    - apply elem_of_app in Hin as [Hin | Hin]; [by eapply Hev1 | by eapply Hev2].
    - rewrite app_assoc in Hin. apply elem_of_app in Hin as [Hin | Hin].
      + apply elem_of_app in Hin as [Hin | Hin]; [by eapply Hev1 | by eapply Hev2].
      + by apply list_elem_of_singleton in Hin. }
  destruct (negb (streq (Header_MethodOverride r) "") && isPathLengthFallback r).
  - destruct (ParseForm _) as [rest [err |]].
    { cbn [fst]. intros Hin. by apply list_elem_of_singleton in Hin. }
    destruct (look order s _ components) as [tr out] eqn:Hrun. cbn [fst].
    intros [Hin | Hin]%elem_of_app.
    + by apply list_elem_of_singleton in Hin.
    + eapply Hlook; [| exact Hrun | exact Hin]. reflexivity.
  - destruct (look order s r components) as [tr out] eqn:Hrun. cbn [fst app].
    intros Hin. eapply Hlook; [| exact Hrun | exact Hin]. reflexivity.
Qed.

(** *** Requests served by their own method *)

(** Property X16. A request that is served by a binding of its own
    method (the handler is invoked right after the release of the lock,
    without the parse of the form that the fallback makes) is served in
    the same way, with the same calls of [Match], on every table that has
    the same bindings for that method: what is registered or deregistered
    under other methods, and the order of iteration of the map, cannot
    change it. *)
Theorem own_method_dispatch_is_local order s r tr f r' params :
  serve order s r = (tr, Invoked f r' params) ->
  last tr = Some EvRUnlock ->
  forall order2 s2,
    bindings s2 (Method r') = bindings s (Method r') ->
    serve order2 s2 r = (tr, Invoked f r' params).
Proof.
  unfold ServeHTTP_in.
  destruct (negb (HasPrefix (URL_Path r) "/")); [done |].
  destruct (override r) as [[tr0 out0] | [tr0 r1]] eqn:Ho.
  { unfold method_override in Ho.
    destruct (negb _ && _); [| done].
    destruct (ParseForm _) as [rest [err |]]; [| done].
    injection Ho as <- <-. done. }
  unfold lookup.
  destruct (primary_loop r1 (bindings s (Method r1)) _ "")
    as [tr1 [out1 | [c1 v1]]] eqn:Hrun1.
  - intros [= <- ->] _ order2 s2 Hsame.
    destruct (primary_loop_registered _ _ _ _ _ _ Hrun1) as [_ Hinv].
    destruct (Hinv _ _ _ eq_refl) as [-> _].
    by rewrite Hsame, Hrun1.
  - destruct (fallback_loop_cases ParseForm isPathLengthFallback r1 order c1 v1)
      as [(tr2 & Hrun2 & _)
         | (o1 & m & pre & b & post & o2 & params0 & tr2 & _ & _ & _ & _ & _ & Hrun2)];
      rewrite Hrun2; [done |].
    intros [= <- Hout] Hlast. exfalso.
    apply found_invoked in Hout as (_ & _ & Hfb & rest & Hparse & _).
    destruct (found_cases ParseForm isPathLengthFallback r1 b params0)
      as (_ & _ & Hfound).
    rewrite (Hfound Hfb rest Hparse) in Hlast. cbn [fst] in Hlast.
    assert (forall l1 l2 l3 (e1 e2 e3 : Event ReqRest),
              last (l1 ++ EvRLock :: l2 ++ l3 ++ e1 :: [e2; e3]) = Some e3)
      as Hsnoc.
    { intros l1 l2 l3 e1 e2 e3.
      replace (l1 ++ EvRLock :: l2 ++ l3 ++ e1 :: [e2; e3])
        with ((l1 ++ EvRLock :: l2 ++ l3 ++ [e1; e2]) ++ [e3]).
      - apply last_snoc.
      - rewrite <- !app_assoc. cbn [app]. by rewrite <- !app_assoc. }
    rewrite Hsnoc in Hlast. done.
Qed.

End DispatchMore.

(** ** ServeHTTP of the variant *)

Lemma LastIndex_range s sep :
  (-1 <= LastIndex s sep < Z.of_nat (String.length s))%Z.
Proof.
  induction s as [| a s IH]; cbn [LastIndex String.length]; [lia |].
  destruct (0 <=? LastIndex s sep)%Z eqn:Hle.
  - apply Z.leb_le in Hle. lia.
  - destruct (Ascii.eqb a sep); lia.
Qed.

Lemma str_to_S a s n : str_to (String a s) (S n) = String a (str_to s n).
Proof. reflexivity. Qed.

Lemma str_from_0 s : str_from s 0 = s.
Proof.
  unfold str_from. rewrite Nat.sub_0_r. destruct s; [done |].
  apply substring_all.
Qed.

Lemma str_to_0 s : str_to s 0 = "".
Proof. by destruct s. Qed.

(** The string is cut at the last separator, and what follows it has no
    separator. *)
Lemma LastIndex_cut s sep :
  (0 <= LastIndex s sep)%Z ->
  s = str_to s (Z.to_nat (LastIndex s sep))
      +:+ String sep (str_from s (Z.to_nat (LastIndex s sep + 1))) /\
  LastIndex (str_from s (Z.to_nat (LastIndex s sep + 1))) sep = (-1)%Z.
Proof.
  induction s as [| a s IH]; cbn [LastIndex]; [lia |].
  pose proof (LastIndex_range s sep) as Hr.
  destruct (0 <=? LastIndex s sep)%Z eqn:Hle.
  - apply Z.leb_le in Hle. intros _. destruct (IH Hle) as [Hcut Hnone].
    replace (Z.to_nat (LastIndex s sep + 1))
      with (S (Z.to_nat (LastIndex s sep))) in * by lia.
    replace (Z.to_nat (LastIndex s sep + 1 + 1))
      with (S (S (Z.to_nat (LastIndex s sep)))) by lia.
    rewrite str_to_S, str_from_S. split; [| done].
    change (String a s
            = String a (str_to s (Z.to_nat (LastIndex s sep))
                        +:+ String sep (str_from s (S (Z.to_nat (LastIndex s sep)))))).
    by rewrite <- Hcut.
  - apply Z.leb_gt in Hle. destruct (Ascii.eqb a sep) eqn:Ha; [| lia].
    apply Ascii.eqb_eq in Ha as ->. intros _.
    change (Z.to_nat (0 + 1)) with 1%nat. change (Z.to_nat 0) with 0%nat.
    rewrite str_to_0, str_from_S, str_from_0. split; [done | lia].
Qed.

Lemma LastIndex_append y sep z : (0 <= LastIndex (y +:+ String sep z) sep)%Z.
Proof.
  induction y as [| a y IH].
  - change ("" +:+ String sep z) with (String sep z). cbn [LastIndex].
    pose proof (LastIndex_range z sep).
    destruct (0 <=? LastIndex z sep)%Z eqn:Hle; [apply Z.leb_le in Hle; lia |].
    by rewrite Ascii.eqb_refl.
  - change (String a y +:+ String sep z) with (String a (y +:+ String sep z)).
    cbn [LastIndex]. apply Z.leb_le in IH. rewrite IH.
    apply Z.leb_le in IH. lia.
Qed.

(** A component without a colon does not end with a colon and a verb. *)
Lemma LastIndex_none_HasSuffix x v :
  LastIndex x ":" = (-1)%Z -> HasSuffix x (":" +:+ v) = false.
Proof.
  intros Hnone. destruct (HasSuffix x (":" +:+ v)) eqn:Hs; [| done].
  destruct (HasSuffix_cut _ _ Hs) as [Hcut _].
  rewrite colon_append in Hcut.
  pose proof (LastIndex_append
                (str_to x (String.length x - String.length (String ":" v)))
                ":" v) as Hge.
  rewrite <- Hcut in Hge. lia.
Qed.

Section VariantServeProofs.

Context {HandlerFunc ReqRest : Type}.
Variable ParseForm : Request ReqRest -> ReqRest * option string.
Variable isPathLengthFallback : Request ReqRest -> bool.
Variable ToUpper : string -> string.
Variable StatusText : Z -> string.
Variable proto : bool.

Implicit Types (s : gmap string (list (handler HandlerFunc))).
Implicit Types (hs : list (handler HandlerFunc)).
Implicit Types (b : handler HandlerFunc).
Implicit Types (r : Request ReqRest) (c components : list string).
Implicit Types (order : list (string * list (handler HandlerFunc))).

Local Abbreviation serve := (ServeHTTP_in ParseForm isPathLengthFallback ToUpper).
Local Abbreviation found := (fallback_found ParseForm isPathLengthFallback).
Local Abbreviation fb_handlers := (fallback_handlers ParseForm isPathLengthFallback).
Local Abbreviation fb_loop := (fallback_loop ParseForm isPathLengthFallback).
Local Abbreviation vserve :=
  (VariantServe.ServeHTTP_in ParseForm isPathLengthFallback ToUpper
     StatusText proto).
Local Abbreviation vsplit :=
  (VariantServe.split_verb (HandlerFunc := HandlerFunc) (ReqRest := ReqRest)
     StatusText proto).
Local Abbreviation vfound :=
  (VariantServe.fallback_found ParseForm isPathLengthFallback StatusText proto).
Local Abbreviation vfb_handlers :=
  (VariantServe.fallback_handlers ParseForm isPathLengthFallback StatusText proto).
Local Abbreviation vfb_loop :=
  (VariantServe.fallback_loop ParseForm isPathLengthFallback StatusText proto).
Local Abbreviation rend := (render (HandlerFunc := HandlerFunc) StatusText proto).

(** Property X17. The variant splits the verb off at the last colon of
    the last component, and the split loses nothing: when the last colon
    of [x] is not at its start, [x] is the new last component, a colon and
    the verb; the new last component is not empty, the verb has no colon,
    and the components before the last one are unchanged. *)
Theorem Variant_split_verb_round_trip components x :
  last components = Some x ->
  (0 < LastIndex x ":")%Z ->
  exists y verb,
    vsplit components
      = inr (take (length components - 1) components ++ [y], verb) /\
    x = y +:+ ":" +:+ verb /\
    y ≠ "" /\
    LastIndex verb ":" = (-1)%Z.
Proof.
  intros Hl Hpos. apply last_lookup_pred in Hl.
  destruct (LastIndex_cut x ":") as [Hcut Hnone]; [lia |].
  exists (str_to x (Z.to_nat (LastIndex x ":"))),
         (str_from x (Z.to_nat (LastIndex x ":" + 1))).
  split; [| split; [by rewrite colon_append | split; [| done]]].
  - unfold VariantServe.split_verb. rewrite Hl.
    replace (LastIndex x ":" =? 0)%Z with false by (symmetry; apply Z.eqb_neq; lia).
    replace (0 <? LastIndex x ":")%Z with true by (symmetry; apply Z.ltb_lt; lia).
    do 2 f_equal.
    assert (length components - 1 < length components)%nat as Hlt
      by (by eapply lookup_lt_Some).
    rewrite insert_take_drop by done.
    replace (S (length components - 1)) with (length components) by lia.
    by rewrite drop_all.
  - pose proof (LastIndex_range x ":") as Hr.
    intros Hy. apply (f_equal String.length) in Hy.
    rewrite length_str_to in Hy by lia. simpl in Hy. lia.
Qed.

(** *** The variant and mux_dynamic.go on paths without a colon *)

Lemma primary_loop_agree r x hs c :
  last c = Some x ->
  LastIndex x ":" = (-1)%Z ->
  VariantServe.primary_loop r hs c ""
  = (fst (primary_loop r hs c ""),
     match snd (primary_loop r hs c "") with
     | inl out => Some (rend out)
     | inr _ => None
     end) /\
  forall c' v', snd (primary_loop r hs c "") = inr (c', v') -> c' = c /\ v' = "".
Proof.
  intros Hl Hnone. pose proof Hl as Hl'. apply last_lookup_pred in Hl'.
  induction hs as [| b hs [IH1 IH2]];
    cbn [primary_loop VariantServe.primary_loop fst snd].
  { split; [done |]. by intros c' v' [= <- <-]. }
  rewrite Hl'.
  assert (verb_index (pat_Verb (pat b)) x = (-1)%Z) as Hidx.
  { unfold verb_index. rewrite LastIndex_none_HasSuffix by done.
    by rewrite andb_false_r. }
  unfold strip_verb. rewrite Hidx. cbn [Z.eqb Z.ltb Z.compare].
  destruct (pat_Match (pat b) c "") as [params |]; [done |].
  rewrite IH1. destruct (primary_loop r hs c "") as [tr res]. cbn [fst snd] in *.
  done.
Qed.

Lemma fallback_found_agree r b params :
  vfound r b params = (fst (found r b params), rend (snd (found r b params))).
Proof.
  unfold VariantServe.fallback_found, fallback_found.
  destruct (isPathLengthFallback r); [| done].
  by destruct (ParseForm r) as [rest [err |]].
Qed.

Lemma fallback_handlers_agree r hs c v :
  vfb_handlers r hs c v
  = (fst (fb_handlers r hs c v), rend <$> snd (fb_handlers r hs c v)).
Proof.
  induction hs as [| b hs IH];
    cbn [fallback_handlers VariantServe.fallback_handlers]; [done |].
  destruct (pat_Match (pat b) c v) as [params |].
  - rewrite fallback_found_agree. by destruct (found r b params).
  - rewrite IH. by destruct (fb_handlers r hs c v).
Qed.

Lemma fallback_loop_agree r order c v :
  vfb_loop r order c v
  = (fst (fb_loop r order c v), rend <$> snd (fb_loop r order c v)).
Proof.
  induction order as [| [m hs] order IH];
    cbn [fallback_loop VariantServe.fallback_loop]; [done |].
  destruct (streq m (Method r)); [done |].
  rewrite fallback_handlers_agree.
  destruct (fb_handlers r hs c v) as [tr [out |]]; cbn [fst snd fmap option_fmap option_map]; [done |].
  rewrite IH. by destruct (fb_loop r order c v).
Qed.

(** Property X18. On a path whose last component has no colon, the
    variant and [ServeHTTP] of mux_dynamic.go do the same: the same
    events in the same order (the lock, the calls of [Match] and of
    [ParseForm]), the same handler invoked with the same request and
    parameters, and the same error, which the variant gives to
    [protoErrorHandler] or to [OtherErrorHandler]. *)
Theorem Variant_ServeHTTP_agrees_without_colon order s r x :
  last (Split (str_from (URL_Path r) 1) "/") = Some x ->
  LastIndex x ":" = (-1)%Z ->
  vserve order s r = (fst (serve order s r), rend (snd (serve order s r))).
Proof.
  intros Hl Hnone. unfold VariantServe.ServeHTTP_in, ServeHTTP_in.
  destruct (negb (HasPrefix (URL_Path r) "/")); [done |].
  unfold VariantServe.split_verb.
  pose proof Hl as Hl'. apply last_lookup_pred in Hl'. rewrite Hl', Hnone.
  cbn [Z.eqb Z.ltb Z.compare].
  unfold VariantServe.method_override, method_override.
  destruct (negb (streq (Header_MethodOverride r) "") && isPathLengthFallback r).
  - destruct (ParseForm _) as [rest [err |]]; [done |].
    set (r1 := set_Rest _ rest).
    unfold VariantServe.lookup, lookup.
    destruct (primary_loop_agree r1 x (bindings s (Method r1)) _ Hl Hnone)
      as [-> Hfin].
    destruct (primary_loop r1 _ _ "") as [tr1 [out1 | [c1 v1]]]; cbn [fst snd] in *;
      [done |].
    destruct (Hfin _ _ eq_refl) as [-> ->].
    rewrite fallback_loop_agree.
    by destruct (fb_loop r1 order _ "") as [tr2 [out2 |]].
  - unfold VariantServe.lookup, lookup.
    destruct (primary_loop_agree r x (bindings s (Method r)) _ Hl Hnone)
      as [-> Hfin].
    destruct (primary_loop r _ _ "") as [tr1 [out1 | [c1 v1]]]; cbn [fst snd] in *;
      [done |].
    destruct (Hfin _ _ eq_refl) as [-> ->].
    rewrite fallback_loop_agree.
    by destruct (fb_loop r order _ "") as [tr2 [out2 |]].
Qed.

End VariantServeProofs.

(** ** More on the goroutines *)

Section GoroutineMore.

Context {HandlerFunc ReqRest : Type}.
Variable ParseForm : Request ReqRest -> ReqRest * option string.
Variable isPathLengthFallback : Request ReqRest -> bool.
Variable ToUpper : string -> string.

Local Abbreviation Thr := (Thread HandlerFunc ReqRest).
Local Abbreviation Wld := (World HandlerFunc ReqRest).
Local Abbreviation tstep := (thread_step ParseForm isPathLengthFallback ToUpper).
Local Abbreviation wstep := (step ParseForm isPathLengthFallback ToUpper).
Local Abbreviation reach := (reachable ParseForm isPathLengthFallback ToUpper).
Local Abbreviation runs := (runs_without ParseForm isPathLengthFallback ToUpper).
Local Abbreviation serve := (ServeHTTP_in ParseForm isPathLengthFallback ToUpper).

Implicit Types (t : Thr) (w : Wld) (l : list Thr).

(** Property X19. The table changes only in the last step of a call of
    [Handle] or [HandlerDeregister], which holds the write lock, and at
    that moment no call of [ServeHTTP] is between its [RLock] and its
    [RUnlock]: a lookup never sees the table change under it. *)
Theorem table_changes_only_under_write_lock w i w' :
  reach w ->
  wstep w i w' ->
  w_table w' = w_table w \/
  (exists o,
      w_threads w !! i = Some (TMutateLocked o) /\
      apply_op (w_table w) o = Some (w_table w') /\
      forall k tr out, w_threads w !! k ≠ Some (TLocked tr out)).
Proof.
  intros Hreach [t s' n' wr' t' Hi Hstep].
  pose proof (reachable_invariant _ _ _ w Hreach) as [Hr _ _ _].
  cbn [w_table].
  inversion Hstep; subst; try (by left).
  right. exists o. do 2 (split; [done |]).
  intros k tr out Hk.
  pose proof (sum_list_member read_locks _ _ _ Hk) as Hge.
  cbn [read_locks] in Hge. lia.
Qed.

(** *** A dispatch runs to its end *)











End GoroutineMore.


(** ** Examples and counterexamples *)

(** C2, counterexample: [Handle] called twice for [GET /a] leaves two
    bindings with the pattern string ["/a"] under [GET]. *)
Lemma Handle_twice_duplicates :
  run_ops ∅ [OpHandle "GET" pat_a "first"; OpHandle "GET" pat_a "second"]
    = Some table_twice /\
  pattern_strings (bindings table_twice "GET") = ["/a"; "/a"] /\
  ~ NoDup (pattern_strings (bindings table_twice "GET")).
Proof.
  split; [reflexivity |]. split; [vm_compute; reflexivity |].
  change (pattern_strings (bindings table_twice "GET")) with ["/a"; "/a"].
  intros Hnd. apply NoDup_cons in Hnd as [Hnot _]. apply Hnot. left.
Qed.

(** C2, witness: [GET /a] registered, removed and registered again. *)
Lemma no_duplicates_without_reregistration_witness :
  (exists s',
      run_ops ∅ [OpHandle "GET" pat_a "first"; OpDeregister "GET" pat_a;
                 OpHandle "GET" pat_a "second"] = Some s' /\
      forall M, NoDup (pattern_strings (bindings s' M))) /\
  (forall (s : gmap string (list (handler string))) M p f,
      pattern_strings (bindings (Handle s M p f) M)
      = pat_String p :: pattern_strings (bindings s M)).
Proof.
  apply (no_duplicates_without_reregistration
           [OpHandle "GET" pat_a "first"; OpDeregister "GET" pat_a;
            OpHandle "GET" pat_a "second"]).
  vm_compute. repeat split; intros Hin; inversion Hin.
Defined.




(** Claim C5, on the failing input: [GET /res:v:1] on the table that has
    [GET /x:1] before [GET /res:v:1]. Alone, the pattern with the verb
    ["v:1"] is given ["res"] and ["v:1"] and matches. Here the candidate
    [/x:1] comes first and strips [":1"]; the pattern with the verb
    ["v:1"] is then given ["res:v"] and ["1"], the split at the last
    colon, and the request is not found. *)
Theorem verb_stripping_after_earlier_candidate :
  candidate_view pat_res_v1 ["res:v:1"] "" = Some (["res"], "v:1") /\
  path_match pat_res_v1 "/res:v:1" = Some ∅ /\
  bindings table_verbs "GET"
    = [ {| pat := pat_x_1; h := "x" |}; {| pat := pat_res_v1; h := "res" |} ] /\
  forall order,
    order ≡ₚ map_to_list table_verbs ->
    ex_serve order table_verbs req_res
    = ([EvRLock; EvMatch pat_x_1 ["res:v"] "1";
        EvMatch pat_res_v1 ["res:v"] "1"; EvRUnlock],
       RoutingError StatusNotFound).
Proof.
  do 3 (split; [reflexivity |]).
  intros order Hperm.
  assert (map_to_list table_verbs
          = [("GET", [ {| pat := pat_x_1; h := "x" |};
                       {| pat := pat_res_v1; h := "res" |} ])]) as Hlist
    by (vm_compute; reflexivity).
  rewrite Hlist in Hperm. apply Permutation_singleton_r in Hperm.
  subst order. vm_compute. reflexivity.
Qed.




(** C7, witness: [POST /a] with a form and the override [put]. *)
Lemma method_override_effect_witness :
  (HasPrefix (URL_Path req_override_put) "/" = false ->
     ex_serve (map_to_list table_a) table_a req_override_put
     = ([], RoutingError StatusBadRequest)) /\
  (HasPrefix (URL_Path req_override_put) "/" = true ->
     (ex_isPathLengthFallback req_override_put = true ->
        Method (set_Method req_override_put "PUT") = "PUT" /\
        (forall rest err,
            ex_ParseForm (set_Method req_override_put "PUT") = (rest, Some err) ->
            ex_serve (map_to_list table_a) table_a req_override_put
            = ([EvParseForm (set_Method req_override_put "PUT")],
               StatusError InvalidArgument err)) /\
        (forall rest,
            ex_ParseForm (set_Method req_override_put "PUT") = (rest, None) ->
            Method (set_Rest (set_Method req_override_put "PUT") rest) = "PUT" /\
            ex_serve (map_to_list table_a) table_a req_override_put
            = (EvParseForm (set_Method req_override_put "PUT")
                 :: fst (lookup ex_ParseForm ex_isPathLengthFallback
                           (map_to_list table_a) table_a
                           (set_Rest (set_Method req_override_put "PUT") rest)
                           ["a"]),
               snd (lookup ex_ParseForm ex_isPathLengthFallback
                      (map_to_list table_a) table_a
                      (set_Rest (set_Method req_override_put "PUT") rest)
                      ["a"])))) /\
     (ex_isPathLengthFallback req_override_put = false ->
        ex_serve (map_to_list table_a) table_a req_override_put
        = lookup ex_ParseForm ex_isPathLengthFallback
            (map_to_list table_a) table_a req_override_put ["a"])).
Proof.
  apply (method_override_effect ex_ParseForm ex_isPathLengthFallback
           ex_ToUpper table_a req_override_put (map_to_list table_a)).
  discriminate.
Defined.

(** C10, counterexample: [GET /a:b:c] on the table that has [GET /x:c]
    before [GET /y:b]. The first candidate strips [":c"] and fails on
    ["a:b"] and ["c"]; the second finds its own verb on ["a:b"], strips
    again, and is matched against ["a"] and ["b"], not against the
    component and the verb that the first one left. *)
Lemma later_candidate_strips_again :
  bindings table_restrip "GET"
    = [ {| pat := pat_x_c; h := "x" |}; {| pat := pat_y_b; h := "y" |} ] /\
  candidate_view pat_x_c ["a:b:c"] "" = Some (["a:b"], "c") /\
  pat_Match pat_x_c ["a:b"] "c" = None /\
  forall order,
    order ≡ₚ map_to_list table_restrip ->
    ex_serve order table_restrip req_abc
    = ([EvRLock; EvMatch pat_x_c ["a:b"] "c"; EvMatch pat_y_b ["a"] "b";
        EvRUnlock],
       RoutingError StatusNotFound).
Proof.
  do 3 (split; [reflexivity |]).
  intros order Hperm.
  assert (map_to_list table_restrip
          = [("GET", [ {| pat := pat_x_c; h := "x" |};
                       {| pat := pat_y_b; h := "y" |} ])]) as Hlist
    by (vm_compute; reflexivity).
  rewrite Hlist in Hperm. apply Permutation_singleton_r in Hperm.
  subst order. vm_compute. reflexivity.
Qed.

(** C10, witness: [GET /a:b:c] on the table with [GET /x:c] and [GET /y:b]. *)
Lemma stripped_component_persists_witness :
  exists tr,
    fst (lookup ex_ParseForm ex_isPathLengthFallback
           (map_to_list table_restrip) table_restrip req_abc ["a:b:c"])
      = EvRLock :: [] ++ EvMatch pat_x_c ["a:b"] "c" :: tr /\
    (forall p c v, EvMatch p c v ∈ tr ->
       exists y, last c = Some y /\ (String.length y < String.length "a:b:c")%nat) /\
    ((forall b' : handler string,
         b' ∈ [ {| pat := pat_y_b; h := "y" |} ] ->
         verb_index (pat_Verb (pat b')) "a:b" = (-1)%Z) ->
     forall p c v, EvMatch p c v ∈ tr -> c = ["a:b"] /\ v = "c").
Proof.
  apply (stripped_component_persists ex_ParseForm ex_isPathLengthFallback
           table_restrip req_abc (map_to_list table_restrip)
           [] {| pat := pat_x_c; h := "x" |} [ {| pat := pat_y_b; h := "y" |} ]
           ["a:b:c"] [] ["a:b:c"] "" "a:b:c").
  - reflexivity.
  - reflexivity.
  - reflexivity.
  - reflexivity.
  - reflexivity.
Defined.

Lemma step_to (w : World string ExRest) i t s' n' wr' t' w' :
  w_threads w !! i = Some t ->
  thread_step ex_ParseForm ex_isPathLengthFallback ex_ToUpper
    (w_table w) (w_readers w) (w_writer w) t s' n' wr' t' ->
  w' = {| w_table := s'; w_readers := n'; w_writer := wr';
          w_threads := <[i := t']> (w_threads w) |} ->
  step ex_ParseForm ex_isPathLengthFallback ex_ToUpper w i w'.
Proof. intros Hi Hstep ->. by econstructor. Qed.

Lemma world_in_handler_reachable :
  reachable ex_ParseForm ex_isPathLengthFallback ex_ToUpper world_in_handler.
Proof.
  pose (out := Invoked (ReqRest := ExRest) "a" req_get_a ∅).
  pose (mutate := TMutate (ReqRest := ExRest) (OpHandle "GET" pat_x_1 "x")).
  pose (w tr n := {| w_table := table_a; w_readers := n; w_writer := false;
                     w_threads := [tr; mutate] |}).
  apply (reachable_step _ _ _ (w (TUnlocked [] out) 0%nat) 0%nat).
  apply (reachable_step _ _ _ (w (TLocked [EvRUnlock] out) 1%nat) 0%nat).
  apply (reachable_step _ _ _
           (w (TLocked [EvMatch pat_a ["a"] ""; EvRUnlock] out) 1%nat) 0%nat).
  apply (reachable_step _ _ _ (w (TWaitRLock req_get_a ["a"]) 0%nat) 0%nat).
  apply (reachable_step _ _ _ world_start 0%nat).
  - apply reachable_initial. repeat split; repeat constructor.
  - eapply step_to; [reflexivity | | reflexivity].
    by apply (step_enter _ _ _ _ _ _ req_get_a [] req_get_a).
  - eapply step_to; [reflexivity | | reflexivity].
    by apply (step_RLock _ _ _ _ _ _ _ (map_to_list table_a)).
  - eapply step_to; [reflexivity | | reflexivity]. apply step_Match.
  - eapply step_to; [reflexivity | | reflexivity]. apply step_RUnlock.
  - eapply step_to; [reflexivity | | reflexivity]. apply step_invoke.
Qed.

(** C8, witness: [GET /a] is inside its handler while [Handle] waits. *)
Lemma handler_does_not_block_mutation_witness :
  w_readers world_in_handler
    = sum_list (read_locks <$> w_threads world_in_handler) /\
  exists w' s0,
    runs_without ex_ParseForm ex_isPathLengthFallback ex_ToUpper
      0%nat world_in_handler w' /\
    w_threads w' !! 0%nat = Some (THandler "a" req_get_a ∅) /\
    w_threads w' !! 1%nat = Some TDone /\
    apply_op s0 (OpHandle "GET" pat_x_1 "x") = Some (w_table w').
Proof.
  apply (handler_does_not_block_mutation ex_ParseForm ex_isPathLengthFallback
           ex_ToUpper world_in_handler 0%nat 1%nat "a" req_get_a ∅
           (OpHandle "GET" pat_x_1 "x")).
  - apply world_in_handler_reachable.
  - reflexivity.
  - reflexivity.
Defined.

(** ** More examples *)

(** X1, witness: the test on the patterns [/a] to [/a/b/c/d/e]. *)
Lemma TestServeMuxMutex_Deregister_passes_witness :
  TestServeMuxMutex_Deregister test_h1 test_h2 test_h3 test_h5 test_h6
  = [Some true; Some true; Some true; Some true].
Proof.
  apply (TestServeMuxMutex_Deregister_passes
           test_h1 test_h2 test_h3 test_h5 test_h6).
  apply (bool_decide_unpack _). vm_compute. reflexivity.
Defined.

(** X10, witness: the verb [v:1] on the path [/books/res:v:1]. *)
Lemma strip_verb_round_trip_witness :
  exists y,
    y ≠ "" /\
    "res:v:1" = y +:+ ":" +:+ "v:1" /\
    strip_verb "v:1" ["books"; "res:v:1"] "" "res:v:1"
    = (take (length ["books"; "res:v:1"] - 1) ["books"; "res:v:1"] ++ [y],
       "v:1").
Proof.
  apply (strip_verb_round_trip "v:1" ["books"; "res:v:1"] "" "res:v:1").
  - reflexivity.
  - discriminate.
  - reflexivity.
  - discriminate.
Defined.

(** X11, witness: [POST /a] with a form, served by the fallback on the
    table with [GET /a] only. *)
Lemma invoked_handler_is_registered_witness :
  exists M (b : handler string) c v,
    b ∈ bindings table_a M /\
    h b = "a" /\
    pat_Match (pat b) c v = Some ∅ /\
    EvMatch (pat b) c v
      ∈ [EvRLock; EvMatch pat_a ["a"] ""; EvRUnlock; EvParseForm req_post_a] /\
    (M = Method (set_Rest req_post_a (true, None)) \/
     exists r0,
       Method r0 = Method (set_Rest req_post_a (true, None)) /\
       M ≠ Method r0 /\
       ex_isPathLengthFallback r0 = true /\
       exists rest,
         ex_ParseForm r0 = (rest, None) /\
         set_Rest req_post_a (true, None) = set_Rest r0 rest).
Proof.
  apply (invoked_handler_is_registered ex_ParseForm ex_isPathLengthFallback
           ex_ToUpper (map_to_list table_a) table_a req_post_a
           [EvRLock; EvMatch pat_a ["a"] ""; EvRUnlock; EvParseForm req_post_a]
           "a" (set_Rest req_post_a (true, None)) ∅).
  - reflexivity.
  - reflexivity.
Defined.

(** X12, witness: [GET /a] deregistered from the table with [GET /a] and
    [GET /b], and [GET /b] requested. *)
Lemma deregistered_binding_not_served_witness :
  (forall q c v,
      EvMatch q c v ∈ fst (ex_serve (map_to_list table_b) table_b req_get_b) ->
      exists M' (b : handler string),
        b ∈ bindings table_ab M' /\ pat b = q /\
        (M' = "GET" -> pat_String q ≠ pat_String pat_a)) /\
  (forall f r' params,
      snd (ex_serve (map_to_list table_b) table_b req_get_b)
      = Invoked f r' params ->
      exists M' (b : handler string),
        b ∈ bindings table_ab M' /\ h b = f /\
        (M' = "GET" -> pat_String (pat b) ≠ pat_String pat_a)).
Proof.
  apply (deregistered_binding_not_served ex_ParseForm ex_isPathLengthFallback
           ex_ToUpper table_ab "GET" pat_a table_b (map_to_list table_b)
           req_get_b).
  - vm_compute. reflexivity.
  - reflexivity.
Defined.

(** X14, witness: [GET /a] on the table with [GET /a/b:v] and
    [POST /{x}], in the two orders of its map. *)
Lemma iteration_order_only_picks_handler_witness :
  snd (ex_serve (map_to_list table_colon) table_colon req_get_a)
  = snd (ex_serve (reverse (map_to_list table_colon)) table_colon req_get_a) \/
  exists (f1 f2 : string) r' params1 params2,
    snd (ex_serve (map_to_list table_colon) table_colon req_get_a)
    = Invoked f1 r' params1 /\
    snd (ex_serve (reverse (map_to_list table_colon)) table_colon req_get_a)
    = Invoked f2 r' params2.
Proof.
  apply (iteration_order_only_picks_handler ex_ParseForm
           ex_isPathLengthFallback ex_ToUpper table_colon req_get_a
           (ex_serve (map_to_list table_colon) table_colon req_get_a)
           (ex_serve (reverse (map_to_list table_colon)) table_colon req_get_a)).
  - exists (map_to_list table_colon). split; reflexivity.
  - exists (reverse (map_to_list table_colon)).
    split; [apply reverse_Permutation | reflexivity].
Defined.

(** X15, witness: [GET /b] on the table with [GET /a/b:v] and
    [POST /{x}]. *)
Lemma no_verb_suffix_no_stripping_witness :
  last (Split (str_from (URL_Path req_get_b) 1) "/") = Some "b" /\
  forall p c v,
    EvMatch p c v ∈ fst (ex_serve (map_to_list table_colon) table_colon req_get_b) ->
    c = Split (str_from (URL_Path req_get_b) 1) "/" /\ v = "".
Proof.
  split; [reflexivity |].
  apply (no_verb_suffix_no_stripping ex_ParseForm ex_isPathLengthFallback
           ex_ToUpper (map_to_list table_colon) table_colon req_get_b "b").
  - reflexivity.
  - intros b Hb. right. apply list_elem_of_singleton in Hb. by subst b.
Defined.

(** X16, witness: [GET /a] on the table with [GET /a] only. *)
Lemma own_method_dispatch_is_local_witness :
  last [EvRLock; EvMatch pat_a ["a"] ""; EvRUnlock]
  = Some (EvRUnlock (ReqRest := ExRest)) /\
  forall order2 (s2 : gmap string (list (handler string))),
    bindings s2 (Method req_get_a) = bindings table_a (Method req_get_a) ->
    ex_serve order2 s2 req_get_a
    = ([EvRLock; EvMatch pat_a ["a"] ""; EvRUnlock], Invoked "a" req_get_a ∅).
Proof.
  split; [reflexivity |].
  apply (own_method_dispatch_is_local ex_ParseForm ex_isPathLengthFallback
           ex_ToUpper (map_to_list table_a) table_a req_get_a
           [EvRLock; EvMatch pat_a ["a"] ""; EvRUnlock] "a" req_get_a ∅).
  - reflexivity.
  - reflexivity.
Defined.

(** X17, witness: the path [/books/res:v:1], split at its last colon. *)
Lemma Variant_split_verb_round_trip_witness :
  exists y verb,
    VariantServe.split_verb (HandlerFunc := string) (ReqRest := ExRest)
      ex_StatusText true ["books"; "res:v:1"]
    = inr (take (length ["books"; "res:v:1"] - 1) ["books"; "res:v:1"] ++ [y],
           verb) /\
    "res:v:1" = y +:+ ":" +:+ verb /\
    y ≠ "" /\
    LastIndex verb ":" = (-1)%Z.
Proof.
  apply (Variant_split_verb_round_trip (HandlerFunc := string)
           (ReqRest := ExRest) ex_StatusText true
           ["books"; "res:v:1"] "res:v:1").
  - reflexivity.
  - reflexivity.
Defined.

(** X18, witness: [GET /b] on the table with [GET /a] only, without a
    [protoErrorHandler]. *)
Lemma Variant_ServeHTTP_agrees_without_colon_witness :
  VariantServe.ServeHTTP_in ex_ParseForm ex_isPathLengthFallback ex_ToUpper
    ex_StatusText false (map_to_list table_a) table_a req_get_b
  = (fst (ex_serve (map_to_list table_a) table_a req_get_b),
     render ex_StatusText false
       (snd (ex_serve (map_to_list table_a) table_a req_get_b))).
Proof.
  apply (Variant_ServeHTTP_agrees_without_colon ex_ParseForm
           ex_isPathLengthFallback ex_ToUpper ex_StatusText false
           (map_to_list table_a) table_a req_get_b "b").
  - reflexivity.
  - reflexivity.
Defined.

Lemma world_locked_reachable :
  reachable ex_ParseForm ex_isPathLengthFallback ex_ToUpper world_locked.
Proof.
  apply (reachable_step _ _ _ world_start 1%nat).
  - apply reachable_initial. repeat split; repeat constructor.
  - eapply step_to; [reflexivity | | reflexivity]. apply step_Lock.
Qed.

(** X19, witness: the last step of [Handle], with [GET /a] not begun. *)
Lemma table_changes_only_under_write_lock_witness :
  w_table world_mutated = w_table world_locked \/
  (exists o,
      w_threads world_locked !! 1%nat = Some (TMutateLocked o) /\
      apply_op (w_table world_locked) o = Some (w_table world_mutated) /\
      forall k tr out, w_threads world_locked !! k ≠ Some (TLocked tr out)).
Proof.
  apply (table_changes_only_under_write_lock ex_ParseForm
           ex_isPathLengthFallback ex_ToUpper world_locked 1%nat world_mutated).
  - apply world_locked_reachable.
  - eapply step_to; [reflexivity | | reflexivity].
    by apply step_mutate_Unlock.
Defined.


